(** * Meeting assistant: free/busy reconciliation and tool dispatch

    A shallow embedding of [src/gcal.py] (calendar operations) and
    [src/agent.py] (the tool-calling loop), with the properties of the
    design document stated and settled against the embedded code.

    Conventions of the embedding.
    - An aware [datetime] is the instant it denotes, an integer number of
      microseconds on the UTC timeline; comparison, [max] and subtraction
      of aware datetimes only depend on that instant.  A [timedelta] is a
      number of microseconds.  Instants and durations are unbounded
      integers; the durations [timedelta] can construct are those of
      [timedelta_representable], and a statement that holds only for
      such a duration carries it as a hypothesis.
    - Python exceptions are values of [exn]; a computation that may raise
      has a result in [pyresult].  Only [Exception] instances are modelled
      (no [KeyboardInterrupt] or [SystemExit]).
    - [print] is modelled in [Gcal] by a log of structured lines; the
      console output of the agent loop is not tracked.
    - The modules read as the repository runs them, with the names they
      use ([datetime], the models, the operations) bound as intended. *)

From Stdlib Require Import ZArith List String Ascii Bool Lia.
From Stdlib Require Import Sorting.Permutation Sorting.Sorted.
Import ListNotations.
Local Open Scope string_scope.
Local Open Scope list_scope.
Local Open Scope Z_scope.

(** ** Python results and exceptions *)

Module Py.

Inductive exn_class : Type :=
| HttpError          (* googleapiclient.errors.HttpError *)
| ValueError
| KeyError
| TypeError
| ValidationError    (* pydantic *)
| OtherException.

Record exn : Type := Exn { exn_cls : exn_class; exn_str : string }.

Inductive pyresult (A : Type) : Type :=
| Ok (a : A)
| Raise (e : exn).
Arguments Ok {A} a.
Arguments Raise {A} e.

Definition is_HttpError (e : exn) : bool :=
  match exn_cls e with HttpError => true | _ => false end.

Definition bind {A B : Type} (m : pyresult A) (f : A -> pyresult B) : pyresult B :=
  match m with
  | Ok a => f a
  | Raise e => Raise e
  end.

(** A list comprehension / loop body that may raise: left to right, the
    first exception ends it. *)
Fixpoint mapM {A B : Type} (f : A -> pyresult B) (l : list A) : pyresult (list B) :=
  match l with
  | [] => Ok []
  | x :: l' =>
      match f x with
      | Raise e => Raise e
      | Ok y =>
          match mapM f l' with
          | Raise e => Raise e
          | Ok ys => Ok (y :: ys)
          end
      end
  end.

(** [KeyError(k)] for a string key: [str] of it is [repr(k)], the key
    between single quotes (keys without quotes, backslashes or control
    characters). *)
Definition key_error (k : string) : exn := Exn KeyError ("'" ++ k ++ "'").

Module Notations.
Notation "x <- m ;; k" := (bind m (fun x => k))
  (at level 61, m at next level, right associativity).
End Notations.

(** The double-quote character, for JSON text built by f-strings. *)
Definition dquote : string := String (ascii_of_nat 34) EmptyString.

End Py.
Import Py.
Import Py.Notations.

(** ** src/models.py *)

Module Models.

Record FindAvailableSlotsArgs : Type := {
  fa_start_date : string;
  fa_end_date : string;
  duration_minutes : Z;
  attendee_emails : list string
}.

Record RetrieveCalendarEventsArgs : Type := {
  rc_start_date : string;
  rc_end_date : string
}.

Record CalendarEvent : Type := {
  title : string;
  ev_start : string;
  ev_end : string
}.

Record RetrieveCalendarEventsOutput : Type := {
  events : list CalendarEvent;
  rc_status : option string;
  rc_error : option string
}.

(** [start_time] and [end_time] hold the datetimes whose [isoformat()] the
    code stores. *)
Record TimeSlot : Type := {
  start_time : Z;
  end_time : Z
}.

Record FindAvailableSlotsOutput : Type := {
  slots : list TimeSlot;
  fa_status : option string;
  fa_error : option string
}.

Record ParseEmailArgs : Type := {
  email_content : string
}.

Record ParseEmailOutput : Type := {
  sender : string;
  subject : string;
  body : string;
  inferred_attendees : list string;
  parsed_at : string
}.

End Models.
Import Models.

(** ** src/gcal.py: the availability computation *)

Module Gcal.

(** A busy interval [(start, end)] as the code keeps it: a pair of
    datetimes, read as the half-open range from [start] to [end]. *)
Definition interval : Type := (Z * Z)%type.

Definition busy_at (l : list interval) (t : Z) : Prop :=
  exists i, In i l /\ fst i <= t < snd i.

(** *** [all_busy_intervals.sort(key=lambda x: x[0])]

    [list.sort] is a stable sort on the key; the stable sorted arrangement
    of a list is unique, and insertion at the first position whose key is
    not smaller computes it. *)

Fixpoint insert_by_start (x : interval) (l : list interval) : list interval :=
  match l with
  | [] => [x]
  | y :: l' =>
      if fst x <=? fst y then x :: y :: l' else y :: insert_by_start x l'
  end.

Fixpoint sort_by_start (l : list interval) : list interval :=
  match l with
  | [] => []
  | x :: l' => insert_by_start x (sort_by_start l')
  end.

(** *** The merge sweep (lines 119-128) *)

(** One iteration of the [for next_start, next_end in ...] loop; the state
    is [merged_busy] and the current run. *)
Definition merge_step (st : list interval * interval) (next : interval)
  : list interval * interval :=
  let '(merged_busy, (current_start, current_end)) := st in
  let '(next_start, next_end) := next in
  if next_start <? current_end
  then (merged_busy, (current_start, Z.max current_end next_end))
  else (merged_busy ++ [(current_start, current_end)], (next_start, next_end)).

Definition merge_busy (all_busy_intervals : list interval) : list interval :=
  match all_busy_intervals with
  | [] => []
  | first :: rest =>
      let '(merged_busy, current) := fold_left merge_step rest ([], first) in
      merged_busy ++ [current]
  end.

(** *** The walk over the obstacles (lines 130-138) *)

(** [datetime.timedelta(minutes=m)] in microseconds.  The constructor
    raises [OverflowError] unless the day count [m // 1440] has magnitude
    at most 999999999; [timedelta_representable] is that range, on which
    this is the value constructed. *)
Definition timedelta_minutes (m : Z) : Z := m * 60000000.

Definition timedelta_representable (m : Z) : Prop :=
  -999999999 <= m / 1440 <= 999999999.

Definition slot_step (min_duration : Z) (st : list TimeSlot * Z) (busy : interval)
  : list TimeSlot * Z :=
  let '(available_slots, last_busy_end) := st in
  let '(busy_start, busy_end) := busy in
  let available_slots' :=
    if (busy_start >? last_busy_end) && (busy_start - last_busy_end >=? min_duration)
    then available_slots ++ [{| start_time := last_busy_end; end_time := busy_start |}]
    else available_slots in
  (available_slots', Z.max last_busy_end busy_end).

Definition walk_slots (start_time_dt end_time_dt min_duration : Z)
  (merged_busy : list interval) : list TimeSlot :=
  let '(available_slots, last_busy_end) :=
    fold_left (slot_step min_duration) merged_busy ([], start_time_dt) in
  if (end_time_dt >? last_busy_end) && (end_time_dt - last_busy_end >=? min_duration)
  then available_slots ++ [{| start_time := last_busy_end; end_time := end_time_dt |}]
  else available_slots.

(** Lines 118-138 together: from the collected intervals to the slots. *)
Definition available_slots_of (start_time_dt end_time_dt : Z) (minutes : Z)
  (all_busy_intervals : list interval) : list TimeSlot :=
  walk_slots start_time_dt end_time_dt (timedelta_minutes minutes)
    (merge_busy (sort_by_start all_busy_intervals)).

(** *** Dates and the search window (lines 81-82, 105-106)

    A date argument is read in the form [YYYY-MM-DD] that the argument
    models document, and [fromisoformat] raises [ValueError] on what it
    rejects.  (From Python 3.11 on it also reads the basic and the week
    forms, such as [20250702]; those are not modelled, and the statements
    about parsed dates are stated for dates this reading accepts.)  The
    proleptic Gregorian day count follows [datetime]. *)

Definition digit (c : ascii) : option Z :=
  let n := Z.of_nat (nat_of_ascii c) in
  if (48 <=? n) && (n <=? 57) then Some (n - 48) else None.

Fixpoint digits (l : list ascii) (acc : Z) : option Z :=
  match l with
  | [] => Some acc
  | c :: l' =>
      match digit c with
      | Some d => digits l' (10 * acc + d)
      | None => None
      end
  end.

Definition is_leap (y : Z) : bool :=
  (y mod 4 =? 0) && (negb (y mod 100 =? 0) || (y mod 400 =? 0)).

Definition days_in_month (y m : Z) : Z :=
  if m =? 2 then (if is_leap y then 29 else 28)
  else if (m =? 4) || (m =? 6) || (m =? 9) || (m =? 11) then 30
  else 31.

Definition days_before_year (y : Z) : Z :=
  let p := y - 1 in p * 365 + p / 4 - p / 100 + p / 400.

Fixpoint days_before_month_from (y : Z) (m : nat) : Z :=
  match m with
  | O => 0
  | S m' => days_before_month_from y m' + days_in_month y (Z.of_nat m)
  end.

Definition days_before_month (y m : Z) : Z :=
  days_before_month_from y (Z.to_nat (m - 1)).

Definition ymd2ord (y m d : Z) : Z :=
  days_before_year y + days_before_month y m + d.

Record date : Type := { year : Z; month : Z; day : Z }.

Definition valid_date (d : date) : bool :=
  (1 <=? year d) && (year d <=? 9999) && (1 <=? month d) && (month d <=? 12)
  && (1 <=? day d) && (day d <=? days_in_month (year d) (month d)).

Definition parse_date (s : string) : option date :=
  match list_ascii_of_string s with
  | [y1; y2; y3; y4; s1; m1; m2; s2; d1; d2] =>
      if Ascii.eqb s1 "-" && Ascii.eqb s2 "-" then
        match digits [y1; y2; y3; y4] 0, digits [m1; m2] 0, digits [d1; d2] 0 with
        | Some y, Some m, Some d =>
            let r := {| year := y; month := m; day := d |} in
            if valid_date r then Some r else None
        | _, _, _ => None
        end
      else None
  | _ => None
  end.

(** The instant of a wall-clock time on a date, read in UTC: microseconds
    since 1970-01-01T00:00:00Z (day 719163 of the proleptic calendar). *)
Definition utc_instant (d : date) (hh mm ss : Z) : Z :=
  ((ymd2ord (year d) (month d) (day d) - 719163) * 86400
   + hh * 3600 + mm * 60 + ss) * 1000000.

(** [fromisoformat(date_string + "T00:00:00")] read in UTC. *)
Definition start_of_day (date_string : string) : pyresult Z :=
  match parse_date date_string with
  | Some d => Ok (utc_instant d 0 0 0)
  | None => Raise (Exn ValueError ("Invalid isoformat string: " ++ date_string)%string)
  end.

(** [fromisoformat(date_string + "T23:59:59")] read in UTC. *)
Definition end_of_day (date_string : string) : pyresult Z :=
  match parse_date date_string with
  | Some d => Ok (utc_instant d 23 59 59)
  | None => Raise (Exn ValueError ("Invalid isoformat string: " ++ date_string)%string)
  end.

(** *** The calendar service handle

    What the code asks of [gcal_service]: the free/busy query and the
    event listing, each of which may raise. *)

Record freebusy_body : Type := {
  timeMin : Z;
  timeMax : Z;
  items : list string;
  timeZone : string
}.

(** One entry of a calendar's ['busy'] list.  Each field is what
    [fromisoformat(interval[...])] gives: the instant, or the exception
    raised for a missing key or a rejected string.  (Timestamps of the
    free/busy response carry an offset, so the datetimes are aware.) *)
Record busy_entry : Type := {
  busy_start : pyresult Z;
  busy_end : pyresult Z
}.

Record calendar_data : Type := {
  errors : bool;                (* truth value of [data.get('errors')] *)
  busy : list busy_entry        (* [data.get('busy', [])] *)
}.

(** [freebusy_result.get('calendars', {}).items()], in dictionary order. *)
Definition freebusy_result : Type := list (string * calendar_data).

Record events_request : Type := {
  calendarId : string;
  ev_timeMin : Z;
  ev_timeMax : Z;
  singleEvents : bool;
  orderBy : string
}.

Record event_time : Type := {
  dateTime : option string;
  date_only : option string
}.

Record event : Type := {
  summary : option string;
  start : option event_time;
  end_ : option event_time
}.

Record service : Type := {
  freebusy_query : freebusy_body -> pyresult freebusy_result;
  events_list : events_request -> pyresult (list event)   (* [.get("items", [])] *)
}.

(** Console output. *)
Inductive line : Type :=
| Retrieving (start_date end_date : string)
| Finding (minutes : Z) (emails : list string)
| Warning (cal_id : string).


(** *** [retrieve_calendar_events] *)

Definition get_required {A : Type} (key : string) (v : option A) : pyresult A :=
  match v with
  | Some a => Ok a
  | None => Raise (key_error key)
  end.

(** [et.get("dateTime", et.get("date"))] *)
Definition time_text (et : event_time) : option string :=
  match dateTime et with
  | Some s => Some s
  | None => date_only et
  end.

(** The [CalendarEvent(...)] of the comprehension: the three subscripts in
    order, then the model's validation of the two optional texts. *)
Definition format_event (ev : event) : pyresult CalendarEvent :=
  t <- get_required "summary" (summary ev) ;;
  s <- get_required "start" (start ev) ;;
  e <- get_required "end" (end_ ev) ;;
  match time_text s, time_text e with
  | Some s', Some e' => Ok {| title := t; ev_start := s'; ev_end := e' |}
  | _, _ => Raise (Exn ValidationError "validation error for CalendarEvent")
  end.

(** The body of the [try].  The two bounds are parsed with the suffixes
    [T00:00:00Z] and [T23:59:59Z], the same instants as the window of
    [find_available_slots]. *)
Definition retrieve_calendar_events_try (gcal_service : service)
  (args : RetrieveCalendarEventsArgs) : pyresult RetrieveCalendarEventsOutput :=
  start_time <- start_of_day (rc_start_date args) ;;
  end_time <- end_of_day (rc_end_date args) ;;
  listed <- events_list gcal_service
              {| calendarId := "primary"; ev_timeMin := start_time;
                 ev_timeMax := end_time; singleEvents := true;
                 orderBy := "startTime" |} ;;
  match listed with
  | [] => Ok {| events := []; rc_status := Some "No upcoming events found.";
                rc_error := None |}
  | _ :: _ =>
      formatted_events <- mapM format_event listed ;;
      Ok {| events := formatted_events; rc_status := None; rc_error := None |}
  end.

Definition retrieve_calendar_events (gcal_service : service)
  (args : RetrieveCalendarEventsArgs)
  : list line * pyresult RetrieveCalendarEventsOutput :=
  ([Retrieving (rc_start_date args) (rc_end_date args)],
   match retrieve_calendar_events_try gcal_service args with
   | Ok out => Ok out
   | Raise error =>
       if is_HttpError error
       then Ok {| events := []; rc_status := None;
                  rc_error := Some ("An API error occurred: " ++ exn_str error)%string |}
       else Ok {| events := []; rc_status := None;
                  rc_error := Some ("An unexpected error occurred: " ++ exn_str error)%string |}
   end).

(** *** [find_available_slots] *)

Definition parse_entry (entry : busy_entry) : pyresult interval :=
  s <- busy_start entry ;;
  e <- busy_end entry ;;
  Ok (s, e).

(** The loop of lines 111-116 over the calendars, with the list collected
    so far; the log holds the warnings printed before the loop ended. *)
Fixpoint collect_busy (calendars : freebusy_result) (all_busy_intervals : list interval)
  : list line * pyresult (list interval) :=
  match calendars with
  | [] => ([], Ok all_busy_intervals)
  | (cal_id, data) :: rest =>
      if errors data then
        let '(log, r) := collect_busy rest all_busy_intervals in
        (Warning cal_id :: log, r)
      else
        match mapM parse_entry (busy data) with
        | Raise e => ([], Raise e)
        | Ok parsed => collect_busy rest (all_busy_intervals ++ parsed)
        end
  end.

Definition slots_output (available_slots : list TimeSlot) : FindAvailableSlotsOutput :=
  match available_slots with
  | [] => {| slots := []; fa_status := Some "No common slots found."; fa_error := None |}
  | _ :: _ => {| slots := available_slots; fa_status := None; fa_error := None |}
  end.

Definition find_available_slots_try (gcal_service : service)
  (args : FindAvailableSlotsArgs) : list line * pyresult FindAvailableSlotsOutput :=
  match start_of_day (fa_start_date args) with
  | Raise e => ([], Raise e)
  | Ok start_time_dt =>
      match end_of_day (fa_end_date args) with
      | Raise e => ([], Raise e)
      | Ok end_time_dt =>
          let body := {| timeMin := start_time_dt; timeMax := end_time_dt;
                         items := attendee_emails args; timeZone := "UTC" |} in
          match freebusy_query gcal_service body with
          | Raise e => ([], Raise e)
          | Ok freebusy_result =>
              let '(log, r) := collect_busy freebusy_result [] in
              (log,
               all_busy_intervals <- r ;;
               Ok (slots_output
                     (available_slots_of start_time_dt end_time_dt
                        (duration_minutes args) all_busy_intervals)))
          end
      end
  end.

Definition find_available_slots (gcal_service : service)
  (args : FindAvailableSlotsArgs) : list line * pyresult FindAvailableSlotsOutput :=
  let '(log, r) := find_available_slots_try gcal_service args in
  (Finding (duration_minutes args) (attendee_emails args) :: log,
   match r with
   | Ok out => Ok out
   | Raise error =>
       if is_HttpError error
       then Ok {| slots := []; fa_status := None;
                  fa_error := Some ("An API error occurred: " ++ exn_str error)%string |}
       else Ok {| slots := []; fa_status := None;
                  fa_error := Some ("An unexpected error occurred: " ++ exn_str error)%string |}
   end).

(** *** Recursive readings of the two loops

    The loops above thread an accumulator; these are the same computations
    by recursion on the remaining intervals (see [merge_busy_from] and
    [walk_slots_from] among the lemmas). *)

Fixpoint merge_from (current : interval) (rest : list interval) : list interval :=
  match rest with
  | [] => [current]
  | next :: rest' =>
      if fst next <? snd current
      then merge_from (fst current, Z.max (snd current) (snd next)) rest'
      else current :: merge_from next rest'
  end.

Fixpoint walk_from (end_time_dt min_duration : Z) (cursor : Z) (l : list interval)
  : list TimeSlot :=
  match l with
  | [] =>
      if (end_time_dt >? cursor) && (end_time_dt - cursor >=? min_duration)
      then [{| start_time := cursor; end_time := end_time_dt |}]
      else []
  | b :: l' =>
      (if (fst b >? cursor) && (fst b - cursor >=? min_duration)
       then [{| start_time := cursor; end_time := fst b |}]
       else [])
      ++ walk_from end_time_dt min_duration (Z.max cursor (snd b)) l'
  end.

(** [last_busy_end] after the obstacles of [l], starting from [cursor]. *)
Definition cursor_after (cursor : Z) (l : list interval) : Z :=
  fold_left (fun c b => Z.max c (snd b)) l cursor.

(** *** Properties of interval and slot lists *)

Definition by_start (a b : interval) : Prop := fst a <= fst b.

(** Each interval ends no later than every later one starts. *)
Definition separated (l : list interval) : Prop :=
  StronglySorted (fun a b => snd a <= fst b) l.

Definition same_busy_time (l1 l2 : list interval) : Prop :=
  forall t, busy_at l1 t <-> busy_at l2 t.

(** The fewest separated intervals covering the busy time of [raw]. *)
Definition minimal_disjoint_cover (raw m : list interval) : Prop :=
  separated m /\ same_busy_time m raw /\
  forall m', separated m' -> same_busy_time m' raw -> (List.length m <= List.length m')%nat.

(** Among intervals of equal start, the one of smaller end comes first. *)
Definition ties_broken_by_end (l : list interval) : Prop :=
  forall pre a mid b post,
    l = pre ++ a :: mid ++ b :: post -> fst a = fst b -> snd a <= snd b.

Definition starts_ascending (sl : list TimeSlot) : Prop :=
  StronglySorted (fun a b => start_time a < start_time b) sl.

Definition pairwise_disjoint (sl : list TimeSlot) : Prop :=
  StronglySorted (fun a b => end_time a <= start_time b) sl.

Definition free_at (window_start window_end : Z) (busy : list interval) (t : Z) : Prop :=
  window_start <= t < window_end /\ ~ busy_at busy t.

(** A non-empty free range of the window that stops, on each side, at the
    window boundary or at a busy instant. *)
Definition maximal_gap (window_start window_end : Z) (busy : list interval)
  (a b : Z) : Prop :=
  a < b /\
  (forall t, a <= t < b -> free_at window_start window_end busy t) /\
  (a = window_start \/ busy_at busy (a - 1)) /\
  (b = window_end \/ busy_at busy b).

(** The slots are, in order and without overlap, exactly the maximal gaps
    of at least the requested length. *)
Definition partitions_free_time (window_start window_end minutes : Z)
  (busy : list interval) (sl : list TimeSlot) : Prop :=
  starts_ascending sl /\ pairwise_disjoint sl /\
  forall a b,
    In {| start_time := a; end_time := b |} sl <->
    maximal_gap window_start window_end busy a b /\ timedelta_minutes minutes <= b - a.

(** A Busy Interval of the data model: start before end. *)
Definition well_formed (i : interval) : Prop := fst i < snd i.

(** *** Views of a free/busy response *)





Definition returned_slots (r : pyresult FindAvailableSlotsOutput) : list TimeSlot :=
  match r with
  | Ok out => slots out
  | Raise _ => []
  end.


(** The merged obstacles as the sweep produces them from Busy Intervals
    that start no later than the window ends. *)
Definition obstacles (window_end : Z) (l : list interval) : Prop :=
  Forall well_formed l /\ separated l /\ Forall (fun i => fst i <= window_end) l.

(** The ranges the walk examines: from the cursor to the start of the next
    obstacle, and from the cursor after the last obstacle to the window
    end. *)
Inductive gap_between (window_start window_end : Z) (merged_busy : list interval)
  : Z -> Z -> Prop :=
| gap_before_obstacle (pre post : list interval) (obstacle : interval) :
    merged_busy = pre ++ obstacle :: post ->
    gap_between window_start window_end merged_busy
      (cursor_after window_start pre) (fst obstacle)
| gap_before_window_end :
    gap_between window_start window_end merged_busy
      (cursor_after window_start merged_busy) window_end.

(** *** Sample services *)

Module Sample.

Definition args : FindAvailableSlotsArgs :=
  {| fa_start_date := "2025-07-02"; fa_end_date := "2025-07-02";
     duration_minutes := 30; attendee_emails := ["usertwo.amd@gmail.com"] |}.

Definition events_args : RetrieveCalendarEventsArgs :=
  {| rc_start_date := "2025-07-02"; rc_end_date := "2025-07-02" |}.

(** 2025-07-02T00:00:00Z and the instants used below. *)
Definition day_start : Z := 1751414400000000.
Definition hour : Z := 3600000000.

Definition answering (fb : freebusy_result) : service :=
  {| freebusy_query := fun _ => Ok fb; events_list := fun _ => Ok [] |}.


(** Busy 10:00-11:00 on the day after the window. *)
Definition busy_next_day : service :=
  answering
    [("usertwo.amd@gmail.com",
      {| errors := false;
         busy := [{| busy_start := Ok (day_start + 34 * hour);
                     busy_end := Ok (day_start + 35 * hour) |}] |})].

(** Busy 09:00-10:00 within the window. *)
Definition busy_in_window : service :=
  answering
    [("usertwo.amd@gmail.com",
      {| errors := false;
         busy := [{| busy_start := Ok (day_start + 9 * hour);
                     busy_end := Ok (day_start + 10 * hour) |}] |})].

Definition failing : service :=
  {| freebusy_query := fun _ => Raise (Exn HttpError "HttpError 403");
     events_list := fun _ => Raise (Exn HttpError "HttpError 403") |}.

End Sample.

(** *** [parse_email]

    Texts are ASCII: [str.lower] maps the letters [A]-[Z] to [a]-[z] and
    leaves the other characters as they are. *)

Definition lower_ascii (c : ascii) : ascii :=
  let n := nat_of_ascii c in
  if (Nat.leb 65 n && Nat.leb n 90)%bool then ascii_of_nat (n + 32) else c.

Fixpoint lower (s : string) : string :=
  match s with
  | EmptyString => EmptyString
  | String c s' => String (lower_ascii c) (lower s')
  end.

(** [needle in haystack] on strings: [needle] occurs as a substring. *)
Fixpoint occurs_in (needle haystack : string) : bool :=
  String.prefix needle haystack
  || match haystack with
     | EmptyString => false
     | String _ rest => occurs_in needle rest
     end.

(** The test of line 65 for one item of [user_map]. *)
Definition mentions (email_body : string) (item : string * string) : bool :=
  occurs_in (lower (fst item)) email_body || occurs_in (lower (snd item)) email_body.

(** One iteration of the loop of lines 64-67. *)
Definition infer_step (email_body : string) (inferred_attendees : list string)
  (item : string * string) : list string :=
  if mentions email_body item then
    if existsb (String.eqb (snd item)) inferred_attendees
    then inferred_attendees
    else inferred_attendees ++ [snd item]
  else inferred_attendees.

(** [parse_email]: the text printed and the output model.  [user_map] is
    the dictionary's items in order; [now] is
    [datetime.datetime.now().isoformat()]. *)
Definition parse_email (args : ParseEmailArgs) (user_map : list (string * string))
  (now : string) : string * ParseEmailOutput :=
  (("Parsing email to infer attendees: "
    ++ String.substring 0 50 (email_content args) ++ "...")%string,
   {| sender := "inferred-sender@example.com";
      subject := "Inferred Meeting Request";
      body := email_content args;
      inferred_attendees :=
        fold_left (infer_step (lower (email_content args))) user_map [];
      parsed_at := now |}).

(** *** What [find_available_slots] reads

    The call parses both dates to the window, the query answers, and the
    busy entries of the calendars without errors parse to [raw]. *)
Definition reads (g : service) (args : FindAvailableSlotsArgs)
  (window_start window_end : Z) (raw : list interval) : Prop :=
  start_of_day (fa_start_date args) = Ok window_start /\
  end_of_day (fa_end_date args) = Ok window_end /\
  exists fb,
    freebusy_query g {| timeMin := window_start; timeMax := window_end;
                        items := attendee_emails args; timeZone := "UTC" |} = Ok fb /\
    snd (collect_busy fb []) = Ok raw.

(** The three shapes of an output: slots alone, the status alone, or the
    error alone. *)
Definition slots_shape (out : FindAvailableSlotsOutput) : Prop :=
  (slots out <> [] /\ fa_status out = None /\ fa_error out = None) \/
  (slots out = [] /\ fa_status out = Some "No common slots found." /\ fa_error out = None) \/
  (slots out = [] /\ fa_status out = None /\ exists msg, fa_error out = Some msg).

Definition events_shape (out : RetrieveCalendarEventsOutput) : Prop :=
  (events out <> [] /\ rc_status out = None /\ rc_error out = None) \/
  (events out = [] /\ rc_status out = Some "No upcoming events found." /\ rc_error out = None) \/
  (events out = [] /\ rc_status out = None /\ exists msg, rc_error out = Some msg).

(** An event the comprehension can format: summary, start and end are
    present and each of start and end has a [dateTime] or a [date]. *)
Definition complete_event (ev : event) : Prop :=
  exists t s e s' e',
    summary ev = Some t /\ start ev = Some s /\ end_ ev = Some e /\
    time_text s = Some s' /\ time_text e = Some e'.

(** The formatted event of a listed event. *)
Definition formats_to (ev : event) (c : CalendarEvent) : Prop :=
  exists s e,
    summary ev = Some (title c) /\ start ev = Some s /\ end_ ev = Some e /\
    time_text s = Some (ev_start c) /\ time_text e = Some (ev_end c).

End Gcal.

(** ** src/agent.py: the tool-calling loop *)

Module Agent.

(** An invocation request of the model: [tool_call.id],
    [tool_call.function.name], [tool_call.function.arguments]. *)
Record tool_call : Type := {
  id : string;
  function_name : string;
  function_arguments : string
}.

(** [response.choices[0].message].  [tool_calls] is [None] or a list; both
    [None] and the empty list are false in [if tool_calls:]. *)
Record response_message : Type := {
  content : option string;
  tool_calls : option (list tool_call)
}.

(** The entries of the [messages] list: the caller's dictionaries, the
    model's message object appended as it is, and the tool dictionaries
    appended by the loop. *)
Inductive message : Type :=
| Dict (role text : string)
| Response (m : response_message)
| ToolMessage (tool_call_id name text : string).

Record tool_definition : Type := {
  td_name : string;
  td_description : string;
  td_parameters : string
}.

(** One [client.chat.completions.create] call: the messages as they are
    at the call, and the tools offered ([None] when the keyword is not
    passed). *)
Record submission : Type := {
  sub_messages : list message;
  sub_tools : option (list tool_definition)
}.

(** [{"error": "Failed to execute tool: <e>"}] *)
Definition error_content (e : exn) : string :=
  ("{" ++ dquote ++ "error" ++ dquote ++ ": " ++ dquote
   ++ "Failed to execute tool: " ++ exn_str e ++ dquote ++ "}")%string.

Definition truthy {A : Type} (l : option (list A)) : bool :=
  match l with
  | Some (_ :: _) => true
  | _ => false
  end.

Section Dispatcher.

(** The validated argument objects, the output models, the user map and the
    calendar handle are opaque to the loop. *)
Variables Args Out UserMap Service : Type.

(** A positional argument of a handler call. *)
Inductive argument : Type :=
| OfArgs (a : Args)
| OfUserMap (m : UserMap)
| OfService (s : Service).

(** An entry of [self.tools]: the handler with its docstring, and the
    argument model with its [model_validate_json] and JSON schema. *)
Record tool : Type := {
  function : list argument -> pyresult Out;
  function_doc : string;
  model_validate_json : string -> pyresult Args;
  model_json_schema : string
}.

Record PydanticAgent : Type := {
  client : submission -> pyresult response_message;
  gcal_service : Service;
  user_map : UserMap;
  tools : list (string * tool)
}.

(** The three module-level operations and their argument models. *)
Variables parse_email retrieve_calendar_events find_available_slots : tool.

(** [function_response.model_dump_json()] *)
Variable model_dump_json : Out -> pyresult string.

(** [__init__] *)
Definition init (the_client : submission -> pyresult response_message)
  (the_service : Service) (the_user_map : UserMap) : PydanticAgent :=
  {| client := the_client;
     gcal_service := the_service;
     user_map := the_user_map;
     tools := [("parse_email", parse_email);
               ("retrieve_calendar_events", retrieve_calendar_events);
               ("find_available_slots", find_available_slots)] |}.

(** [self.tools[name]] *)
Fixpoint tools_get (d : list (string * tool)) (name : string) : pyresult tool :=
  match d with
  | [] => Raise (key_error name)
  | (k, v) :: d' => if String.eqb k name then Ok v else tools_get d' name
  end.

Definition _get_tool_definitions (self : PydanticAgent) : list tool_definition :=
  map (fun '(name, t) =>
         {| td_name := name; td_description := function_doc t;
            td_parameters := model_json_schema t |})
      (tools self).

(** The body of the [try] (lines 32-43), up to the serialized content. *)
(** Lines 35-40: the call of the handler, by the name of the operation. *)
Definition call_function (self : PydanticAgent)
  (function_to_call : list argument -> pyresult Out) (function_name : string)
  (function_args : Args) : pyresult Out :=
  if String.eqb function_name "parse_email"
  then function_to_call [OfArgs function_args; OfUserMap (user_map self)]
  else if String.eqb function_name "retrieve_calendar_events"
          || String.eqb function_name "find_available_slots"
  then function_to_call [OfService (gcal_service self); OfArgs function_args]
  else function_to_call [OfArgs function_args].

(** The body of the [try] (lines 32-43), up to the serialized content;
    [t] is the entry whose [args_model] line 30 has read. *)
Definition try_tool (self : PydanticAgent) (t : tool) (call : tool_call)
  : pyresult string :=
  function_args <- model_validate_json t (function_arguments call) ;;
  function_to_call <- (t' <- tools_get (tools self) (function_name call) ;; Ok (function t')) ;;
  function_response <-
    call_function self function_to_call (function_name call) function_args ;;
  model_dump_json function_response.

(** One iteration of [for tool_call in tool_calls] on the shared
    [messages] list: the list after the iteration, and the exception that
    leaves the loop, if any. *)
Definition handle_tool_call (self : PydanticAgent) (messages : list message)
  (call : tool_call) : list message * option exn :=
  match tools_get (tools self) (function_name call) with
  | Raise e => (messages, Some e)
  | Ok t =>
      match try_tool self t call with
      | Ok content_str =>
          (messages ++ [ToolMessage (id call) (function_name call) content_str], None)
      | Raise e =>
          (messages ++ [ToolMessage (id call) (function_name call) (error_content e)], None)
      end
  end.

Fixpoint handle_tool_calls (self : PydanticAgent) (messages : list message)
  (calls : list tool_call) : list message * option exn :=
  match calls with
  | [] => (messages, None)
  | call :: rest =>
      match handle_tool_call self messages call with
      | (messages', Some e) => (messages', Some e)
      | (messages', None) => handle_tool_calls self messages' rest
      end
  end.

(** What a call of [run_conversation] leaves behind: the caller's list
    after the in-place appends, the submissions made to the model in
    order, and the value returned or the exception propagated. *)
Record run : Type := {
  run_messages : list message;
  run_submissions : list submission;
  run_result : pyresult response_message
}.

Definition run_conversation (self : PydanticAgent) (messages : list message) : run :=
  let tool_defs := _get_tool_definitions self in
  let first := {| sub_messages := messages; sub_tools := Some tool_defs |} in
  match client self first with
  | Raise e =>
      {| run_messages := messages; run_submissions := [first]; run_result := Raise e |}
  | Ok response_message =>
      if truthy (tool_calls response_message) then
        let messages1 := messages ++ [Response response_message] in
        match handle_tool_calls self messages1
                (match tool_calls response_message with Some l => l | None => [] end) with
        | (messages2, Some e) =>
            {| run_messages := messages2; run_submissions := [first];
               run_result := Raise e |}
        | (messages2, None) =>
            let second := {| sub_messages := messages2; sub_tools := None |} in
            {| run_messages := messages2; run_submissions := [first; second];
               run_result := client self second |}
        end
      else
        {| run_messages := messages; run_submissions := [first];
           run_result := Ok response_message |}
  end.

(** The two submissions of a run: the first offers the catalog, the final
    one offers no tools. *)
Definition first_submission (self : PydanticAgent) (messages : list message) : submission :=
  {| sub_messages := messages; sub_tools := Some (_get_tool_definitions self) |}.

Definition final_submission (messages : list message) : submission :=
  {| sub_messages := messages; sub_tools := None |}.

(** The tool message the loop appends for a call to a registered tool. *)
Definition tool_message (self : PydanticAgent) (t : tool) (call : tool_call) : message :=
  match try_tool self t call with
  | Ok content_str => ToolMessage (id call) (function_name call) content_str
  | Raise e => ToolMessage (id call) (function_name call) (error_content e)
  end.

Definition registered (self : PydanticAgent) (call : tool_call) : Prop :=
  exists t, tools_get (tools self) (function_name call) = Ok t.

(** The invocation [call] of the registered tool [t] fails with [e]: its
    payload is rejected by the argument model (malformed JSON, or JSON that
    does not fit the schema), or the handler raises on the validated
    arguments. *)
Definition fails_with (self : PydanticAgent) (t : tool) (call : tool_call) (e : exn)
  : Prop :=
  model_validate_json t (function_arguments call) = Raise e \/
  exists function_args,
    model_validate_json t (function_arguments call) = Ok function_args /\
    call_function self (function t) (function_name call) function_args = Raise e.

(** The message that answers [call] in the conversation. *)
Definition answers (self : PydanticAgent) (call : tool_call) (m : message) : Prop :=
  exists t, tools_get (tools self) (function_name call) = Ok t /\
            m = tool_message self t call.

End Dispatcher.

Arguments OfArgs {Args UserMap Service} a.
Arguments OfUserMap {Args UserMap Service} m.
Arguments OfService {Args UserMap Service} s.
Arguments function {Args Out UserMap Service} t _.
Arguments function_doc {Args Out UserMap Service} t.
Arguments model_validate_json {Args Out UserMap Service} t _.
Arguments model_json_schema {Args Out UserMap Service} t.
Arguments client {Args Out UserMap Service} self _ : rename.
Arguments gcal_service {Args Out UserMap Service} self : rename.
Arguments user_map {Args Out UserMap Service} self : rename.
Arguments tools {Args Out UserMap Service} self : rename.
Arguments tools_get {Args Out UserMap Service} d name.
Arguments _get_tool_definitions {Args Out UserMap Service} self.
Arguments call_function {Args Out UserMap Service} self function_to_call function_name function_args.
Arguments try_tool {Args Out UserMap Service} model_dump_json self t call.
Arguments handle_tool_call {Args Out UserMap Service} model_dump_json self messages call.
Arguments handle_tool_calls {Args Out UserMap Service} model_dump_json self messages calls.
Arguments run_conversation {Args Out UserMap Service} model_dump_json self messages.
Arguments tool_message {Args Out UserMap Service} model_dump_json self t call.
Arguments registered {Args Out UserMap Service} self call.
Arguments fails_with {Args Out UserMap Service} self t call e.
Arguments answers {Args Out UserMap Service} model_dump_json self call m.
Arguments first_submission {Args Out UserMap Service} self messages.

(** *** A small instance

    Argument objects and outputs are texts, the argument model rejects the
    empty payload, and the calendar operations raise on the payload
    [boom]. *)

Module Sample.

Definition validate (payload : string) : pyresult string :=
  if String.eqb payload EmptyString
  then Raise (Exn ValidationError "Invalid JSON: EOF while parsing a value")
  else Ok payload.

Definition echo : tool string string unit unit :=
  {| function := fun (_ : list (argument string unit unit)) => Ok "parsed";
     function_doc := "Parses the content of an email.";
     model_validate_json := validate;
     model_json_schema := "{}" |}.

Definition calendar_operation : tool string string unit unit :=
  {| function := fun l =>
       match l with
       | [OfService _; OfArgs a] =>
           if String.eqb a "boom" then Raise (Exn OtherException "handler failed")
           else Ok "events"
       | _ => Raise (Exn TypeError "unexpected arguments")
       end;
     function_doc := "Retrieves calendar events.";
     model_validate_json := validate;
     model_json_schema := "{}" |}.

(** A model that asks for [calls] when offered tools and answers [done]
    otherwise. *)
Definition scripted_client (calls : option (list tool_call)) (s : submission)
  : pyresult response_message :=
  match sub_tools s with
  | Some _ => Ok {| content := None; tool_calls := calls |}
  | None => Ok {| content := Some "done"; tool_calls := None |}
  end.

Definition agent (calls : option (list tool_call)) : PydanticAgent string string unit unit :=
  init string string unit unit echo calendar_operation calendar_operation
    (scripted_client calls) tt tt.

Definition dump (out : string) : pyresult string := Ok out.

Definition conversation : list message :=
  [Dict "system" "You are a helpful assistant."; Dict "user" "When can we meet?"].

Definition unknown_call : tool_call :=
  {| id := "call_1"; function_name := "make_coffee"; function_arguments := "{}" |}.

Definition good_call : tool_call :=
  {| id := "call_2"; function_name := "parse_email"; function_arguments := "{}" |}.

Definition malformed_call : tool_call :=
  {| id := "call_3"; function_name := "find_available_slots"; function_arguments := EmptyString |}.

Definition raising_call : tool_call :=
  {| id := "call_4"; function_name := "retrieve_calendar_events";
     function_arguments := "boom" |}.

End Sample.

End Agent.

(** ** src/main.py: the request handler *)

Module Main.
Import Agent.

Definition USER_MAP : list (string * string) :=
  [("userone", "userone.amd@gmail.com");
   ("usertwo", "usertwo.amd@gmail.com");
   ("userthree", "userthree.amd@gmail.com")].

(** The fields [your_meeting_assistant] reads from the request with
    [data.get]: [None] when the key is absent. *)
Record request_data : Type := {
  data_From : option string;
  data_Request_id : option string
}.

Inductive json_value : Type :=
| JString (s : string)
| JNull.

Definition json_of (v : option string) : json_value :=
  match v with
  | Some s => JString s
  | None => JNull
  end.

(** What the function returns: [jsonify(payload)], alone or paired with a
    status code.  Console output is not tracked. *)
Record http_response : Type := {
  payload : list (string * json_value);
  status_code : option Z
}.

(** The loop of lines 32-35: the first item whose email equals the
    sender. *)
Fixpoint find_user (items : list (string * string)) (sender : option string)
  : option (string * string) :=
  match items with
  | [] => None
  | (user_id, email) :: rest =>
      match sender with
      | Some s => if String.eqb email s then Some (user_id, email) else find_user rest sender
      | None => find_user rest sender
      end
  end.

(** [str(USER_MAP)] for texts without quotes. *)
Definition repr_item (item : string * string) : string :=
  ("'" ++ fst item ++ "': '" ++ snd item ++ "'")%string.

Definition repr_map (m : list (string * string)) : string :=
  ("{" ++ String.concat ", " (map repr_item m) ++ "}")%string.

Definition system_prompt (current_user_id email : string) : string :=
  ("You are a helpful assistant. "
   ++ "The current user is '" ++ current_user_id ++ "' (" ++ email ++ "). "
   ++ "You have access to a list of users and their emails: "
   ++ repr_map USER_MAP ++ ". When a user is mentioned by their ID (e.g., userone), "
   ++ "you must use their corresponding email address for calendar operations. "
   ++ "When a request requires multiple steps (like parsing an email and then finding a time), "
   ++ "complete each step sequentially using the available tools. "
   ++ "IMPORTANT: When calling a tool, ensure that all arguments are valid JSON. "
   ++ "Specifically, lists of strings must be formatted as proper JSON arrays, for example: "
   ++ "[" ++ dquote ++ "email1@example.com" ++ dquote ++ ", "
   ++ dquote ++ "email2@example.com" ++ dquote
   ++ "]. Do not use single quotes or output a string representation of a Python list.")%string.

Section Handler.

Variables Args Out Service : Type.

(** The operations and the serializer the agent is built from, the
    chat-completion endpoint, and [authenticate_google_calendar], which
    returns a handle or [None], or raises. *)
Variables parse_email retrieve_calendar_events find_available_slots
  : tool Args Out (list (string * string)) Service.
Variable model_dump_json : Out -> pyresult string.
Variable llama : submission -> pyresult response_message.
Variable authenticate_google_calendar : string -> pyresult (option Service).

(** [from_email] and [prompt] are read by the function and bound nowhere
    in the file: what reading each gives, the value bound to it at run
    time or the [NameError] raised when there is none. *)
Variables from_email prompt : pyresult string.

(** The answer for a sender that is not found (line 38). *)
Definition not_found : pyresult http_response :=
  v <- from_email ;;
  Ok {| payload :=
          [("error", JString ("User with email '" ++ v ++ "' not found in USER_MAP.")%string)];
        status_code := Some 400 |}.

(** What a call leaves behind: the users authentication was asked for,
    the run of the conversation if there was one, and the value returned
    or the exception propagated. *)
Record handled : Type := {
  authentications : list string;
  conversation : option run;
  returned : pyresult http_response
}.

Definition your_meeting_assistant (data : request_data) : handled :=
  match find_user USER_MAP (data_From data) with
  | Some (current_user_id, email) =>
      if String.eqb current_user_id EmptyString then
        {| authentications := []; conversation := None; returned := not_found |}
      else
        match authenticate_google_calendar current_user_id with
        | Raise e =>
            {| authentications := [current_user_id]; conversation := None;
               returned := Raise e |}
        | Ok None =>
            {| authentications := [current_user_id]; conversation := None;
               returned :=
                 Ok {| payload :=
                         [("error",
                           JString ("Could not authenticate Google Calendar for user "
                                    ++ current_user_id)%string)];
                       status_code := Some 500 |} |}
        | Ok (Some gcal_service) =>
            let agent :=
              init Args Out (list (string * string)) Service
                parse_email retrieve_calendar_events find_available_slots
                llama gcal_service USER_MAP in
            match prompt with
            | Raise e =>
                {| authentications := [current_user_id]; conversation := None;
                   returned := Raise e |}
            | Ok the_prompt =>
                let conversation_history :=
                  [Dict "system" (system_prompt current_user_id email);
                   Dict "user" the_prompt] in
                let r := run_conversation model_dump_json agent conversation_history in
                {| authentications := [current_user_id]; conversation := Some r;
                   returned :=
                     match run_result r with
                     | Ok final_response =>
                         Ok {| payload :=
                                 [("response", json_of (content final_response));
                                  ("request_id", json_of (data_Request_id data))];
                               status_code := None |}
                     | Raise _ =>
                         Ok {| payload :=
                                 [("error",
                                   JString "An internal error occurred while processing the request.")];
                               status_code := Some 500 |}
                     end |}
            end
        end
  | None =>
      {| authentications := []; conversation := None; returned := not_found |}
  end.

End Handler.

Arguments your_meeting_assistant {Args Out Service}.

End Main.

(** ** Sample data for the further properties *)

Module Fixtures.
Import Gcal Agent Main.

Definition timed (text : string) : event_time :=
  {| dateTime := Some text; date_only := None |}.

Definition all_day (text : string) : event_time :=
  {| dateTime := None; date_only := Some text |}.

Definition standup : event :=
  {| summary := Some "Standup";
     start := Some (timed "2025-07-02T09:00:00Z");
     end_ := Some (timed "2025-07-02T09:15:00Z") |}.

Definition offsite : event :=
  {| summary := Some "Offsite";
     start := Some (all_day "2025-07-02");
     end_ := Some (all_day "2025-07-03") |}.

Definition untitled : event :=
  {| summary := None;
     start := Some (timed "2025-07-02T11:00:00Z");
     end_ := Some (timed "2025-07-02T12:00:00Z") |}.

Definition listing (l : list event) : service :=
  {| freebusy_query := fun _ => Ok []; events_list := fun _ => Ok l |}.

Definition day_end : Z := Gcal.Sample.day_start + 86399000000.

(** One participant busy for the whole day and beyond its last second. *)
Definition busy_all_day : service :=
  Gcal.Sample.answering
    [("usertwo.amd@gmail.com",
      {| errors := false;
         busy := [{| busy_start := Ok Gcal.Sample.day_start;
                     busy_end := Ok (Gcal.Sample.day_start + 24 * Gcal.Sample.hour) |}] |})].

(** A calendar in error and a calendar without busy time. *)
Definition nothing_busy : service :=
  Gcal.Sample.answering
    [("userone.amd@gmail.com",
      {| errors := true;
         busy := [{| busy_start := Ok (Gcal.Sample.day_start + 9 * Gcal.Sample.hour);
                     busy_end := Ok (Gcal.Sample.day_start + 10 * Gcal.Sample.hour) |}] |});
     ("usertwo.amd@gmail.com", {| errors := false; busy := [] |})].


(** The free/busy endpoint refuses the query for 2025-07-02 and answers
    the others; the event listing works. *)
Definition freebusy_refused : service :=
  {| freebusy_query := fun body =>
       if timeMin body =? Gcal.Sample.day_start
       then Raise (Exn HttpError "HttpError 403")
       else Ok [];
     events_list := fun _ => Ok [] |}.

(** The event listing fails with an exception that is not an
    [HttpError]; the free/busy endpoint works. *)
Definition listing_times_out : service :=
  {| freebusy_query := fun _ => Ok [];
     events_list := fun _ => Raise (Exn OtherException "timed out") |}.

Definition unreadable : busy_entry :=
  {| busy_start := Ok (Gcal.Sample.day_start + 9 * Gcal.Sample.hour);
     busy_end := Raise (Exn ValueError "Invalid isoformat string") |}.

Definition with_unreadable_entry : service :=
  Gcal.Sample.answering
    [("usertwo.amd@gmail.com", {| errors := false; busy := [unreadable] |})].

(** The handler's collaborators: operations on texts, a calendar handle
    for every user, and a scripted model. *)
Definition operation (answer : string) : tool string string (list (string * string)) unit :=
  {| function := fun (_ : list (argument string (list (string * string)) unit)) => Ok answer;
     function_doc := "An operation of the catalog.";
     model_validate_json := Agent.Sample.validate;
     model_json_schema := "{}" |}.

Definition authenticate_all (user_id : string) : pyresult (option unit) := Ok (Some tt).

Definition request : request_data :=
  {| data_From := Some "userone.amd@gmail.com";
     data_Request_id := Some "TC1-BOTH-AVAILABLE-6118b54f" |}.

Definition stranger : request_data :=
  {| data_From := Some "nobody@example.com"; data_Request_id := None |}.

Definition handle (calls : option (list tool_call)) (data : request_data) : handled :=
  your_meeting_assistant (operation "parsed") (operation "events") (operation "slots")
    Agent.Sample.dump (Agent.Sample.scripted_client calls) authenticate_all
    (Raise (Exn OtherException "name 'from_email' is not defined"))
    (Ok "When can we meet?") data.

End Fixtures.

(** ** Properties of the availability computation *)

Module GcalProps.
Import Gcal.

(** *** The sort *)

Lemma insert_by_start_perm (x : interval) (l : list interval) :
  Permutation (x :: l) (insert_by_start x l).
Proof.
  induction l as [|y l IH]; simpl.
  - apply Permutation_refl.
  - destruct (fst x <=? fst y).
    + apply Permutation_refl.
    + eapply perm_trans; [apply perm_swap|]. now apply perm_skip.
Qed.

Lemma sort_by_start_perm (l : list interval) : Permutation l (sort_by_start l).
Proof.
  induction l as [|x l IH]; simpl.
  - constructor.
  - eapply perm_trans; [apply perm_skip, IH|]. apply insert_by_start_perm.
Qed.

Lemma insert_by_start_sorted (x : interval) (l : list interval) :
  StronglySorted by_start l -> StronglySorted by_start (insert_by_start x l).
Proof.
  induction 1 as [|y l Hl IH Hy]; simpl.
  - repeat constructor.
  - destruct (fst x <=? fst y) eqn:E.
    + apply Z.leb_le in E. constructor.
      * now constructor.
      * constructor; [exact E|].
        eapply Forall_impl; [|exact Hy]. unfold by_start. intros; lia.
    + apply Z.leb_gt in E. constructor; [exact IH|].
      eapply Permutation_Forall; [apply insert_by_start_perm|].
      constructor; [unfold by_start; lia | exact Hy].
Qed.

Lemma sort_by_start_sorted (l : list interval) : StronglySorted by_start (sort_by_start l).
Proof.
  induction l; simpl; [constructor | now apply insert_by_start_sorted].
Qed.

Lemma insert_by_start_stable (k : Z) (x : interval) (l : list interval) :
  filter (fun i => fst i =? k) (insert_by_start x l) = filter (fun i => fst i =? k) (x :: l).
Proof.
  induction l as [|y l IH]; [reflexivity|].
  cbn [insert_by_start]. destruct (fst x <=? fst y) eqn:E; [reflexivity|].
  apply Z.leb_gt in E.
  cbn [filter] in *. rewrite IH.
  destruct (fst x =? k) eqn:Ex; destruct (fst y =? k) eqn:Ey; try reflexivity.
  apply Z.eqb_eq in Ex, Ey. lia.
Qed.

Lemma sort_by_start_stable (k : Z) (l : list interval) :
  filter (fun i => fst i =? k) (sort_by_start l) = filter (fun i => fst i =? k) l.
Proof.
  induction l as [|x l IH]; [reflexivity|].
  cbn [sort_by_start]. rewrite insert_by_start_stable. cbn [filter]. now rewrite IH.
Qed.

Lemma busy_at_perm (l1 l2 : list interval) :
  Permutation l1 l2 -> same_busy_time l1 l2.
Proof.
  intros P t. unfold busy_at. split; intros (i & Hi & Ht); exists i; split; auto.
  - eapply Permutation_in; eauto.
  - eapply Permutation_in; [apply Permutation_sym|]; eauto.
Qed.

(** *** The merge sweep *)

Lemma fold_merge_step (rest : list interval) (acc : list interval) (cur : interval) :
  (let '(merged_busy, current) := fold_left merge_step rest (acc, cur) in
   merged_busy ++ [current]) = acc ++ merge_from cur rest.
Proof.
  revert acc cur. induction rest as [|n rest IH]; intros acc [cs ce]; [reflexivity|].
  destruct n as [ns ne]. cbn [fold_left merge_step merge_from fst snd].
  destruct (ns <? ce).
  - apply IH.
  - rewrite IH. now rewrite <- app_assoc.
Qed.

Lemma merge_busy_from (cur : interval) (rest : list interval) :
  merge_busy (cur :: rest) = merge_from cur rest.
Proof.
  unfold merge_busy. now rewrite (fold_merge_step rest [] cur).
Qed.

Lemma merge_from_starts (rest : list interval) (cur : interval) :
  Forall (fun i => In (fst i) (map fst (cur :: rest))) (merge_from cur rest).
Proof.
  revert cur. induction rest as [|n rest IH]; intros cur; cbn [merge_from].
  - constructor; [now left | constructor].
  - destruct (fst n <? snd cur).
    + eapply Forall_impl; [|apply IH]. cbn. intros i [H|H]; auto.
    + constructor; [now left|].
      eapply Forall_impl; [|apply IH]. cbn. intros i [H|H]; auto.
Qed.

Lemma merge_from_separated (rest : list interval) (cur : interval) :
  StronglySorted by_start (cur :: rest) -> separated (merge_from cur rest).
Proof.
  revert cur. induction rest as [|n rest IH]; intros cur S; cbn [merge_from].
  - repeat constructor.
  - inversion S as [|? ? Srest Hcur]; subst.
    inversion Srest as [|? ? Srest' Hn]; subst.
    inversion Hcur as [|? ? Hcn Hcrest]; subst.
    destruct (fst n <? snd cur) eqn:E.
    + apply IH. constructor; [exact Srest'|].
      eapply Forall_impl; [|exact Hcrest]. unfold by_start. cbn. auto.
    + apply Z.ltb_ge in E. constructor; [now apply IH|].
      eapply Forall_impl; [|apply merge_from_starts].
      cbn. intros i [H|H].
      * lia.
      * apply in_map_iff in H. destruct H as (j & Hj & Hin).
        rewrite Forall_forall in Hn. specialize (Hn j Hin). unfold by_start in Hn. lia.
Qed.

Lemma busy_at_cons (i : interval) (l : list interval) (t : Z) :
  busy_at (i :: l) t <-> fst i <= t < snd i \/ busy_at l t.
Proof.
  unfold busy_at. split.
  - intros (j & [->|Hj] & Ht); [now left | right; eauto].
  - intros [Ht | (j & Hj & Ht)]; [exists i | exists j]; cbn; auto.
Qed.

Lemma busy_at_nil (t : Z) : ~ busy_at [] t.
Proof. intros (i & [] & _). Qed.

Lemma merge_from_busy (rest : list interval) (cur : interval) :
  StronglySorted by_start (cur :: rest) ->
  same_busy_time (merge_from cur rest) (cur :: rest).
Proof.
  unfold same_busy_time.
  revert cur. induction rest as [|n rest IH]; intros cur S t; cbn [merge_from].
  - reflexivity.
  - inversion S as [|? ? Srest Hcur]; subst.
    inversion Srest as [|? ? Srest' Hn]; subst.
    inversion Hcur as [|? ? Hcn Hcrest]; subst. unfold by_start in Hcn.
    destruct (fst n <? snd cur) eqn:E.
    + apply Z.ltb_lt in E.
      assert (S' : StronglySorted by_start ((fst cur, Z.max (snd cur) (snd n)) :: rest)).
      { constructor; [exact Srest'|].
        eapply Forall_impl; [|exact Hcrest]. unfold by_start. cbn. auto. }
      rewrite (IH _ S' t), !busy_at_cons. cbn [fst snd].
      assert (A : fst cur <= t < Z.max (snd cur) (snd n) <->
                  fst cur <= t < snd cur \/ fst n <= t < snd n) by lia.
      tauto.
    + rewrite busy_at_cons, (IH n Srest t), !busy_at_cons. tauto.
Qed.

Lemma merge_from_well_formed (rest : list interval) (cur : interval) :
  Forall well_formed (cur :: rest) -> Forall well_formed (merge_from cur rest).
Proof.
  revert cur. induction rest as [|n rest IH]; intros cur F; cbn [merge_from].
  - exact F.
  - inversion F as [|? ? Fc Fr]; subst. inversion Fr as [|? ? Fn Fr']; subst.
    unfold well_formed in *.
    destruct (fst n <? snd cur).
    + apply IH. constructor; [cbn; lia | exact Fr'].
    + constructor; [exact Fc | now apply IH].
Qed.

Lemma merge_from_fixed (rest : list interval) (cur : interval) :
  separated (cur :: rest) -> merge_from cur rest = cur :: rest.
Proof.
  revert cur. induction rest as [|n rest IH]; intros cur S; cbn [merge_from]; [reflexivity|].
  inversion S as [|? ? Srest Hcur]; subst.
  inversion Hcur as [|? ? Hcn _]; subst.
  destruct (fst n <? snd cur) eqn:E.
  - apply Z.ltb_lt in E. lia.
  - now rewrite IH.
Qed.

Lemma merge_busy_fixed (l : list interval) : separated l -> merge_busy l = l.
Proof.
  destruct l as [|cur rest]; [reflexivity|]. intros S.
  rewrite merge_busy_from. now apply merge_from_fixed.
Qed.

Lemma merge_busy_separated (l : list interval) :
  StronglySorted by_start l -> separated (merge_busy l).
Proof.
  destruct l as [|cur rest]; [constructor|]. intros S.
  rewrite merge_busy_from. now apply merge_from_separated.
Qed.

Lemma merge_busy_same_time (l : list interval) :
  StronglySorted by_start l -> same_busy_time (merge_busy l) l.
Proof.
  destruct l as [|cur rest]; [intros _ t; reflexivity|]. intros S.
  rewrite merge_busy_from. now apply merge_from_busy.
Qed.

(** C7, as amended.  The union is sorted by start time only, and the sort
    is stable: the sorted sequence is a rearrangement of the collected
    intervals in ascending start order in which the intervals of any one
    start keep the order in which they were collected (no tie-break on the
    end time). *)
Theorem sort_is_stable_on_start_only (l : list interval) :
  Permutation l (sort_by_start l) /\
  StronglySorted by_start (sort_by_start l) /\
  forall k, filter (fun i => fst i =? k) (sort_by_start l) = filter (fun i => fst i =? k) l.
Proof.
  split; [apply sort_by_start_perm|].
  split; [apply sort_by_start_sorted|].
  intro k. apply (sort_by_start_stable k l).
Qed.

(** C7 as stated fails: two intervals of equal start stay in collection
    order, the one with the larger end first. *)
Lemma sort_keeps_larger_end_first :
  sort_by_start [(1, 5); (1, 3)] = [(1, 5); (1, 3)] /\
  ~ ties_broken_by_end (sort_by_start [(1, 5); (1, 3)]).
Proof.
  split; [reflexivity|].
  intros H. specialize (H [] (1, 5) [] (1, 3) [] eq_refl eq_refl). cbn in H. lia.
Qed.

(** C3, as amended.  On the sorted union the sweep follows the stated
    rule (the next interval joins the current run exactly when its start
    is strictly less than the run's end, the end becoming the larger of
    the two; otherwise the run closes and a new one opens), and produces
    intervals in order, each ending no later than the next starts,
    covering exactly the busy time of the input; merging its own output
    changes nothing.  Intervals that only touch are not joined. *)
Theorem sweep_merges_overlapping_runs (raw : list interval) :
  (forall cur next rest,
      merge_busy (cur :: next :: rest) =
      if fst next <? snd cur
      then merge_busy ((fst cur, Z.max (snd cur) (snd next)) :: rest)
      else cur :: merge_busy (next :: rest)) /\
  separated (merge_busy (sort_by_start raw)) /\
  same_busy_time (merge_busy (sort_by_start raw)) raw /\
  merge_busy (merge_busy (sort_by_start raw)) = merge_busy (sort_by_start raw).
Proof.
  split; [|split; [|split]].
  - intros cur next rest. rewrite !merge_busy_from. cbn [merge_from].
    destruct (fst next <? snd cur); reflexivity.
  - apply merge_busy_separated, sort_by_start_sorted.
  - intro t. rewrite (merge_busy_same_time _ (sort_by_start_sorted raw) t).
    symmetry. apply (busy_at_perm _ _ (sort_by_start_perm raw) t).
  - apply merge_busy_fixed, merge_busy_separated, sort_by_start_sorted.
Qed.

(** C3 as stated fails: two intervals that touch stay two runs, although
    one interval covers the same busy time. *)
Lemma touching_intervals_stay_apart :
  merge_busy (sort_by_start [(1, 2); (2, 3)]) = [(1, 2); (2, 3)] /\
  ~ minimal_disjoint_cover [(1, 2); (2, 3)] (merge_busy (sort_by_start [(1, 2); (2, 3)])).
Proof.
  split; [reflexivity|].
  intros (_ & _ & Hmin).
  specialize (Hmin [(1, 3)]).
  assert (S : separated [(1, 3)]) by repeat constructor.
  assert (B : same_busy_time [(1, 3)] [(1, 2); (2, 3)]).
  { intro t. rewrite !busy_at_cons. cbn [fst snd].
    pose proof (busy_at_nil t) as N.
    assert (A : 1 <= t < 3 <-> 1 <= t < 2 \/ 2 <= t < 3) by lia.
    tauto. }
  specialize (Hmin S B). cbn in Hmin. lia.
Qed.

(** *** The walk over the obstacles *)

Lemma fold_slot_step (we D : Z) (l : list interval) (acc : list TimeSlot) (c : Z) :
  (let '(available_slots, last_busy_end) := fold_left (slot_step D) l (acc, c) in
   if (we >? last_busy_end) && (we - last_busy_end >=? D)
   then available_slots ++ [{| start_time := last_busy_end; end_time := we |}]
   else available_slots) = acc ++ walk_from we D c l.
Proof.
  revert acc c. induction l as [|[bs be] l IH]; intros acc c.
  - cbn. destruct ((we >? c) && (we - c >=? D)); [reflexivity | now rewrite app_nil_r].
  - cbn [fold_left slot_step walk_from fst snd]. rewrite IH.
    destruct ((bs >? c) && (bs - c >=? D)); cbn [app].
    + now rewrite <- app_assoc.
    + reflexivity.
Qed.

Lemma walk_slots_from (ws we D : Z) (l : list interval) :
  walk_slots ws we D l = walk_from we D ws l.
Proof. unfold walk_slots. now rewrite (fold_slot_step we D l [] ws). Qed.

Lemma walk_from_app (we D : Z) (pre l : list interval) (c : Z) :
  exists before,
    walk_from we D c (pre ++ l) = before ++ walk_from we D (cursor_after c pre) l.
Proof.
  revert c. induction pre as [|b pre IH]; intro c.
  - now exists [].
  - cbn [app walk_from]. destruct (IH (Z.max c (snd b))) as [before E].
    rewrite E. eexists. rewrite app_assoc. reflexivity.
Qed.

Lemma emitted_iff (x y D : Z) :
  (x >? y) && (x - y >=? D) = true <-> y < x /\ D <= x - y.
Proof. rewrite andb_true_iff, Z.gtb_lt, Z.geb_le. tauto. Qed.

Lemma walk_from_lengths (we D : Z) (l : list interval) (c : Z) (s : TimeSlot) :
  In s (walk_from we D c l) ->
  start_time s < end_time s /\ D <= end_time s - start_time s.
Proof.
  revert c. induction l as [|b l IH]; intro c; cbn [walk_from].
  - destruct ((we >? c) && (we - c >=? D)) eqn:E; [|intros []].
    apply emitted_iff in E. intros [<-|[]]. cbn. lia.
  - rewrite in_app_iff. intros [H|H]; [|now apply IH in H].
    destruct ((fst b >? c) && (fst b - c >=? D)) eqn:E; [|destruct H].
    apply emitted_iff in E. destruct H as [<-|[]]. cbn. lia.
Qed.

Section Walk.

Variables window_end D : Z.

Lemma obstacles_inv (b : interval) (l : list interval) :
  obstacles window_end (b :: l) ->
  fst b < snd b /\ fst b <= window_end /\ Forall (fun i => snd b <= fst i) l /\ obstacles window_end l.
Proof.
  intros (W & S & E).
  inversion W; inversion S; inversion E; subst. unfold well_formed in *.
  repeat split; assumption.
Qed.

Lemma not_busy_before (l : list interval) (x t : Z) :
  Forall (fun i => x <= fst i) l -> t < x -> ~ busy_at l t.
Proof.
  intros F Ht (i & Hi & Hb). rewrite Forall_forall in F. specialize (F i Hi). lia.
Qed.

Lemma walk_from_sound (l : list interval) (c : Z) (s : TimeSlot) :
  obstacles window_end l ->
  In s (walk_from window_end D c l) ->
  c <= start_time s /\ end_time s <= window_end /\
  (forall t, start_time s <= t < end_time s -> ~ busy_at l t) /\
  (start_time s = c \/ busy_at l (start_time s - 1)) /\
  (end_time s = window_end \/ busy_at l (end_time s)).
Proof.
  revert c. induction l as [|b l IH]; intros c O; cbn [walk_from].
  - destruct ((window_end >? c) && (window_end - c >=? D)); [|intros []].
    intros [<-|[]]. cbn. repeat split; try lia; auto. intros t _. apply busy_at_nil.
  - apply obstacles_inv in O. destruct O as (Hb & Hbe & Hsep & O).
    rewrite in_app_iff. intros [H|H].
    + destruct ((fst b >? c) && (fst b - c >=? D)) eqn:E; [|destruct H].
      apply emitted_iff in E. destruct H as [<-|[]]. cbn.
      repeat split; try lia; auto.
      * intros t Ht. rewrite busy_at_cons. intros [B|B]; [lia|].
        revert B. apply (not_busy_before l (snd b)); [exact Hsep | lia].
      * right. apply busy_at_cons. left. lia.
    + destruct (IH _ O H) as (H1 & H2 & H3 & H4 & H5).
      repeat split; try lia.
      * intros t Ht. rewrite busy_at_cons. intros [B|B]; [lia | now apply (H3 t)].
      * destruct H4 as [H4|H4].
        -- destruct (Z.max_spec c (snd b)) as [[? M]|[? M]]; rewrite M in H4.
           ++ right. apply busy_at_cons. left. lia.
           ++ now left.
        -- right. apply busy_at_cons. now right.
      * destruct H5 as [H5|H5]; [now left | right; apply busy_at_cons; now right].
Qed.

Lemma walk_from_complete (l : list interval) (c a b : Z) :
  obstacles window_end l ->
  c <= a -> a < b -> b <= window_end -> D <= b - a ->
  (forall t, a <= t < b -> ~ busy_at l t) ->
  (a = c \/ busy_at l (a - 1)) ->
  (b = window_end \/ busy_at l b) ->
  In {| start_time := a; end_time := b |} (walk_from window_end D c l).
Proof.
  revert c. induction l as [|o l IH]; intros c O Hca Hab Hbe HD Hfree Hl Hr; cbn [walk_from].
  - destruct Hl as [->|B]; [|now apply busy_at_nil in B].
    destruct Hr as [->|B]; [|now apply busy_at_nil in B].
    assert (E : (window_end >? c) && (window_end - c >=? D) = true)
      by (apply emitted_iff; lia).
    rewrite E. now left.
  - apply obstacles_inv in O. destruct O as (Ho & Hoe & Hsep & O).
    assert (Fa : ~ (fst o <= a < snd o)).
    { intro B. apply (Hfree a); [lia|]. apply busy_at_cons. now left. }
    assert (Fl : forall t, a <= t < b -> ~ busy_at l t).
    { intros t Ht B. apply (Hfree t Ht). apply busy_at_cons. now right. }
    assert (Fb : b <= fst o \/ snd o <= a).
    { destruct (Z.le_gt_cases b (fst o)) as [?|G]; [now left|right].
      destruct (Z.le_gt_cases (snd o) a) as [?|G']; [assumption|].
      exfalso. apply (Hfree (Z.max a (fst o))); [lia|].
      apply busy_at_cons. left. lia. }
    rewrite in_app_iff.
    destruct Fb as [Fb|Fb].
    + (* the gap lies before this obstacle: it is the one emitted here *)
      left.
      assert (Ha : a = c).
      { destruct Hl as [?|B]; [assumption|]. exfalso.
        apply busy_at_cons in B. destruct B as [B|B]; [lia|].
        revert B. apply (not_busy_before l (snd o)); [exact Hsep | lia]. }
      assert (Hb : b = fst o).
      { destruct Hr as [->|B]; [lia|].
        apply busy_at_cons in B. destruct B as [B|B]; [lia|].
        exfalso. revert B. apply (not_busy_before l (snd o)); [exact Hsep | lia]. }
      subst a b.
      assert (E : (fst o >? c) && (fst o - c >=? D) = true) by (apply emitted_iff; lia).
      rewrite E. now left.
    + (* the gap lies after this obstacle *)
      right. apply IH; try assumption; try lia.
      * destruct Hl as [->|B]; [left; lia|].
        apply busy_at_cons in B. destruct B as [B|B]; [left; lia | now right].
      * destruct Hr as [->|B]; [now left|].
        apply busy_at_cons in B. destruct B as [B|B]; [lia | now right].
Qed.

Lemma walk_from_ordered (l : list interval) (c : Z) :
  obstacles window_end l ->
  starts_ascending (walk_from window_end D c l) /\
  pairwise_disjoint (walk_from window_end D c l).
Proof.
  unfold starts_ascending, pairwise_disjoint.
  revert c. induction l as [|b l IH]; intros c O; cbn [walk_from].
  - destruct ((window_end >? c) && (window_end - c >=? D)); split; repeat constructor.
  - pose proof (obstacles_inv _ _ O) as (Hb & _ & _ & O').
    destruct (IH (Z.max c (snd b)) O') as [IH1 IH2].
    destruct ((fst b >? c) && (fst b - c >=? D)) eqn:E; [|now split].
    apply emitted_iff in E. cbn [app].
    assert (F : Forall (fun s => Z.max c (snd b) <= start_time s)
                  (walk_from window_end D (Z.max c (snd b)) l)).
    { apply Forall_forall. intros s Hs. now apply (walk_from_sound l _ s O'). }
    split; (constructor; [assumption|]);
      (eapply Forall_impl; [|exact F]); cbn; intros; lia.
Qed.

End Walk.

Lemma merged_obstacles (window_end : Z) (raw : list interval) :
  Forall (fun i => well_formed i /\ fst i <= window_end) raw ->
  obstacles window_end (merge_busy (sort_by_start raw)).
Proof.
  intros F.
  assert (Fs : Forall (fun i => well_formed i /\ fst i <= window_end) (sort_by_start raw)).
  { eapply Permutation_Forall; [apply sort_by_start_perm | exact F]. }
  pose proof (sort_by_start_sorted raw) as S.
  destruct (sort_by_start raw) as [|cur rest]; [repeat constructor|].
  rewrite merge_busy_from. split; [|split].
  - apply merge_from_well_formed. eapply Forall_impl; [|exact Fs]. now intros i [? _].
  - now apply merge_from_separated.
  - eapply Forall_impl; [|apply merge_from_starts]. cbn beta.
    intros i Hi. apply in_map_iff in Hi. destruct Hi as (j & <- & Hj).
    rewrite Forall_forall in Fs. now apply Fs.
Qed.

Lemma merged_same_busy_time (raw : list interval) :
  same_busy_time (merge_busy (sort_by_start raw)) raw.
Proof.
  intro t. rewrite (merge_busy_same_time _ (sort_by_start_sorted raw) t).
  symmetry. apply (busy_at_perm _ _ (sort_by_start_perm raw) t).
Qed.

Lemma maximal_gap_same_busy (ws we : Z) (l1 l2 : list interval) (a b : Z) :
  same_busy_time l1 l2 -> maximal_gap ws we l1 a b -> maximal_gap ws we l2 a b.
Proof.
  intros B (Hab & Hfree & Hl & Hr). unfold maximal_gap, free_at in *.
  split; [exact Hab|]. split; [|split].
  - intros t Ht. destruct (Hfree t Ht) as [Hw Hn]. split; [exact Hw|].
    intro Hb. apply Hn. now apply B.
  - destruct Hl as [?|Hl]; [now left | right; now apply B].
  - destruct Hr as [?|Hr]; [now left | right; now apply B].
Qed.

(** C1, as amended.  For every window, every minimum duration greater
    than zero and every collection of Busy Intervals (start before end)
    that start no later than the window ends, the slots computed from the
    merged-busy set of the sweep are in ascending start order, pairwise
    disjoint, and are exactly the maximal gaps of the window minus the
    busy time whose length is at least the minimum duration: each slot is
    such a gap and none is omitted.  (A duration too long for a
    [timedelta] is longer than every gap between datetimes: no gap
    qualifies, and the call, which ends in the error result, returns no
    slot.) *)
Theorem slots_partition_free_time (window_start window_end minutes : Z)
  (raw : list interval) :
  0 < minutes ->
  Forall (fun i => well_formed i /\ fst i <= window_end) raw ->
  partitions_free_time window_start window_end minutes raw
    (available_slots_of window_start window_end minutes raw).
Proof.
  intros _ F. unfold available_slots_of. rewrite walk_slots_from.
  pose proof (merged_obstacles window_end raw F) as O.
  pose proof (merged_same_busy_time raw) as B.
  set (merged := merge_busy (sort_by_start raw)) in *.
  set (D := timedelta_minutes minutes).
  destruct (walk_from_ordered window_end D merged window_start O) as [A P].
  split; [exact A|]. split; [exact P|].
  intros a b. split.
  - intros Hin.
    destruct (walk_from_lengths _ _ _ _ _ Hin) as [Hab HD].
    destruct (walk_from_sound window_end D merged _ _ O Hin) as (H1 & H2 & H3 & H4 & H5).
    cbn [start_time end_time] in *.
    split; [|exact HD].
    apply (maximal_gap_same_busy _ _ merged raw); [exact B|].
    split; [exact Hab|]. split; [|split]; try assumption.
    intros t Ht. split; [lia | now apply H3].
  - intros [G HD].
    apply (maximal_gap_same_busy _ _ raw merged) in G; [|intro t; symmetry; apply B].
    destruct G as (Hab & Hfree & Hl & Hr).
    apply walk_from_complete; try assumption.
    + destruct (Hfree a) as [? _]; lia.
    + destruct (Hfree (b - 1)) as [? _]; lia.
    + intros t Ht. now destruct (Hfree t Ht).
Qed.

Lemma slots_partition_free_time_witness :
  0 < 30 /\
  Forall (fun i => well_formed i /\ fst i <= 7200000000)
    [(0, 3600000000); (1800000000, 5400000000)] /\
  partitions_free_time 0 7200000000 30 [(0, 3600000000); (1800000000, 5400000000)]
    (available_slots_of 0 7200000000 30 [(0, 3600000000); (1800000000, 5400000000)]).
Proof.
  assert (D : 0 < 30) by lia.
  assert (F : Forall (fun i => well_formed i /\ fst i <= 7200000000)
                [(0, 3600000000); (1800000000, 5400000000)])
    by (repeat constructor; unfold well_formed; cbn; lia).
  split; [exact D|].
  split; [exact F | exact (slots_partition_free_time 0 7200000000 30 _ D F)].
Defined.

(** C1 as stated fails on a busy interval that starts after the window
    ends: the slot emitted before it runs past the window end, so it is
    not a gap of the window, and the gap up to the window end is not
    emitted. *)
Lemma slot_runs_past_window_end :
  available_slots_of 0 600000000 1 [(900000000, 960000000)]
    = [{| start_time := 0; end_time := 900000000 |}] /\
  ~ partitions_free_time 0 600000000 1 [(900000000, 960000000)]
      (available_slots_of 0 600000000 1 [(900000000, 960000000)]).
Proof.
  split; [reflexivity|].
  intros (_ & _ & H).
  destruct (proj1 (H 0 900000000)) as [(_ & Hfree & _) _]; [now left|].
  destruct (Hfree 600000000) as [Hw _]; lia.
Qed.

(** C8.  For every gap between the cursor and the next merged-busy
    obstacle, or between the cursor and the window end: a minimum duration
    exactly equal to the gap's length has the gap emitted as a slot, and a
    minimum duration one minute larger leaves it out. *)
Theorem gap_of_exact_length_is_emitted (window_start window_end minutes : Z)
  (merged_busy : list interval) (cursor stop : Z) :
  gap_between window_start window_end merged_busy cursor stop ->
  cursor < stop ->
  stop - cursor = timedelta_minutes minutes ->
  In {| start_time := cursor; end_time := stop |}
     (walk_slots window_start window_end (timedelta_minutes minutes) merged_busy) /\
  ~ In {| start_time := cursor; end_time := stop |}
       (walk_slots window_start window_end (timedelta_minutes (minutes + 1)) merged_busy).
Proof.
  intros G Hlt Hlen. rewrite !walk_slots_from. split.
  - assert (E : (stop >? cursor) && (stop - cursor >=? timedelta_minutes minutes) = true)
      by (apply emitted_iff; lia).
    destruct G as [pre post obstacle ->|].
    + destruct (walk_from_app window_end (timedelta_minutes minutes) pre
                  (obstacle :: post) window_start) as [before ->].
      apply in_or_app. right. cbn [walk_from]. rewrite E. now left.
    + destruct (walk_from_app window_end (timedelta_minutes minutes)
                  merged_busy [] window_start) as [before E0].
      rewrite app_nil_r in E0. rewrite E0.
      apply in_or_app. right. cbn [walk_from]. rewrite E. now left.
  - intros Hin. apply walk_from_lengths in Hin. cbn [start_time end_time] in Hin.
    unfold timedelta_minutes in *. lia.
Qed.

Lemma gap_of_exact_length_is_emitted_witness :
  let merged_busy := [(1800000000, 3600000000)] in
  gap_between 0 7200000000 merged_busy 0 1800000000 /\
  0 < 1800000000 /\
  1800000000 - 0 = timedelta_minutes 30 /\
  In {| start_time := 0; end_time := 1800000000 |}
     (walk_slots 0 7200000000 (timedelta_minutes 30) merged_busy) /\
  ~ In {| start_time := 0; end_time := 1800000000 |}
       (walk_slots 0 7200000000 (timedelta_minutes 31) merged_busy).
Proof.
  intro merged_busy.
  assert (G : gap_between 0 7200000000 merged_busy 0 1800000000)
    by exact (gap_before_obstacle 0 7200000000 merged_busy [] []
                (1800000000, 3600000000) eq_refl).
  assert (L : 0 < 1800000000) by lia.
  assert (E : 1800000000 - 0 = timedelta_minutes 30) by reflexivity.
  split; [exact G|]. split; [exact L|]. split; [exact E|].
  exact (gap_of_exact_length_is_emitted 0 7200000000 30 merged_busy 0 1800000000 G L E).
Defined.

(** *** The operations as a whole *)

Lemma slots_of_output (sl : list TimeSlot) : slots (slots_output sl) = sl.
Proof. now destruct sl. Qed.

Lemma walk_from_in_window (we D : Z) (l : list interval) (c : Z) (s : TimeSlot) :
  Forall (fun i => fst i <= we) l ->
  In s (walk_from we D c l) ->
  c <= start_time s /\ start_time s < end_time s /\ end_time s <= we.
Proof.
  revert c. induction l as [|b l IH]; intros c F; cbn [walk_from].
  - destruct ((we >? c) && (we - c >=? D)) eqn:E; [|intros []].
    apply emitted_iff in E. intros [<-|[]]. cbn. lia.
  - inversion F as [|? ? Hb Fl]; subst. rewrite in_app_iff. intros [H|H].
    + destruct ((fst b >? c) && (fst b - c >=? D)) eqn:E; [|destruct H].
      apply emitted_iff in E. destruct H as [<-|[]]. cbn. lia.
    + apply (IH _ Fl) in H. lia.
Qed.

Lemma merge_busy_starts (P : Z -> Prop) (l : list interval) :
  Forall (fun i => P (fst i)) l -> Forall (fun i => P (fst i)) (merge_busy l).
Proof.
  destruct l as [|cur rest]; [constructor|]. intros F. rewrite merge_busy_from.
  eapply Forall_impl; [|apply merge_from_starts]. cbn beta.
  intros i Hi. apply in_map_iff in Hi. destruct Hi as (j & <- & Hj).
  rewrite Forall_forall in F. now apply F.
Qed.

Lemma available_slots_in_window (ws we minutes : Z) (raw : list interval) (s : TimeSlot) :
  Forall (fun i => fst i <= we) raw ->
  In s (available_slots_of ws we minutes raw) ->
  ws <= start_time s /\ start_time s < end_time s /\ end_time s <= we.
Proof.
  intros F. unfold available_slots_of. rewrite walk_slots_from.
  apply walk_from_in_window.
  apply (merge_busy_starts (fun x => x <= we)).
  eapply Permutation_Forall; [apply sort_by_start_perm | exact F].
Qed.

Lemma mapM_parse_entry (P : Z -> Prop) (entries : list busy_entry) (parsed : list interval) :
  (forall entry t, In entry entries -> busy_start entry = Ok t -> P t) ->
  mapM parse_entry entries = Ok parsed ->
  Forall (fun i => P (fst i)) parsed.
Proof.
  revert parsed. induction entries as [|x entries IH]; intros parsed H; cbn [mapM].
  - intros [= <-]. constructor.
  - unfold parse_entry at 1, bind.
    destruct (busy_start x) as [s|] eqn:Es; [|discriminate].
    destruct (busy_end x) as [e|]; [|discriminate].
    destruct (mapM parse_entry entries) as [ys|] eqn:E; [|discriminate].
    intros [= <-]. constructor.
    + cbn. apply (H x); [now left | exact Es].
    + apply IH; [|reflexivity]. intros entry t Hin. apply H. now right.
Qed.

Lemma collect_busy_starts (P : Z -> Prop) (fb : freebusy_result)
  (acc all : list interval) :
  (forall cal_id data entry t,
      In (cal_id, data) fb -> errors data = false ->
      In entry (busy data) -> busy_start entry = Ok t -> P t) ->
  Forall (fun i => P (fst i)) acc ->
  snd (collect_busy fb acc) = Ok all ->
  Forall (fun i => P (fst i)) all.
Proof.
  revert acc. induction fb as [|[cal_id data] fb IH]; intros acc H Facc; cbn [collect_busy].
  - now intros [= <-].
  - destruct (errors data) eqn:Eerr.
    + destruct (collect_busy fb acc) as [log r] eqn:E. cbn [snd]. intros ->.
      apply (IH acc); [| exact Facc | now rewrite E].
      intros c d entry t Hin. apply (H c d entry t). now right.
    + destruct (mapM parse_entry (busy data)) as [parsed|] eqn:Em; [|discriminate].
      apply IH.
      * intros c d entry t Hin. apply (H c d entry t). now right.
      * apply Forall_app. split; [exact Facc|].
        apply (mapM_parse_entry P (busy data)); [|exact Em].
        intros entry t. now apply (H cal_id data); [left|].
Qed.










(** C9.  When the calendar API call made by [find_available_slots] (the
    free/busy query for the window of its two dates) or by
    [retrieve_calendar_events] (the event listing between its two dates)
    raises, an [HttpError] or any other exception, the operation does not
    propagate it: it returns a result value whose [error] field holds the
    message built from the exception and which carries no slots,
    respectively no events, and no status. *)
Theorem api_failure_becomes_error_field (gcal_service : service)
  (slot_args : FindAvailableSlotsArgs) (event_args : RetrieveCalendarEventsArgs) :
  (forall (start_time_dt end_time_dt : Z) (error : exn),
      start_of_day (fa_start_date slot_args) = Ok start_time_dt ->
      end_of_day (fa_end_date slot_args) = Ok end_time_dt ->
      freebusy_query gcal_service
        {| timeMin := start_time_dt; timeMax := end_time_dt;
           items := attendee_emails slot_args; timeZone := "UTC" |} = Raise error ->
      snd (find_available_slots gcal_service slot_args)
      = Ok {| slots := []; fa_status := None;
              fa_error :=
                Some ((if is_HttpError error then "An API error occurred: "
                       else "An unexpected error occurred: ") ++ exn_str error)%string |}) /\
  (forall (start_time end_time : Z) (error : exn),
      start_of_day (rc_start_date event_args) = Ok start_time ->
      end_of_day (rc_end_date event_args) = Ok end_time ->
      events_list gcal_service
        {| calendarId := "primary"; ev_timeMin := start_time; ev_timeMax := end_time;
           singleEvents := true; orderBy := "startTime" |} = Raise error ->
      snd (retrieve_calendar_events gcal_service event_args)
      = Ok {| events := []; rc_status := None;
              rc_error :=
                Some ((if is_HttpError error then "An API error occurred: "
                       else "An unexpected error occurred: ") ++ exn_str error)%string |}).
Proof.
  split.
  - intros ws we error Hs He Hq.
    unfold find_available_slots, find_available_slots_try.
    rewrite Hs, He, Hq. cbn [snd]. now destruct (is_HttpError error).
  - intros ws we error Hs He Hq.
    unfold retrieve_calendar_events, retrieve_calendar_events_try, bind.
    rewrite Hs, He, Hq. cbn [snd]. now destruct (is_HttpError error).
Qed.

Lemma api_failure_becomes_error_field_witness :
  snd (find_available_slots Fixtures.freebusy_refused Sample.args)
  = Ok {| slots := []; fa_status := None;
          fa_error := Some "An API error occurred: HttpError 403" |} /\
  snd (retrieve_calendar_events Fixtures.listing_times_out Sample.events_args)
  = Ok {| events := []; rc_status := None;
          rc_error := Some "An unexpected error occurred: timed out" |}.
Proof.
  split.
  - exact (proj1 (api_failure_becomes_error_field Fixtures.freebusy_refused Sample.args
                    Sample.events_args)
             Sample.day_start Fixtures.day_end (Exn HttpError "HttpError 403")
             eq_refl eq_refl eq_refl).
  - exact (proj2 (api_failure_becomes_error_field Fixtures.listing_times_out Sample.args
                    Sample.events_args)
             Sample.day_start Fixtures.day_end (Exn OtherException "timed out")
             eq_refl eq_refl eq_refl).
Defined.

(** C10, as amended.  For every pair of ISO dates the search window runs
    from the start date at 00:00:00 UTC to the end date at 23:59:59 UTC,
    and that window is what the free/busy query is asked for.  Provided
    every busy interval read from the response starts no later than the
    window ends, every returned slot is a non-empty range of instants of
    that window, so the final second of the end date is never part of a
    slot. *)
Theorem slots_lie_in_search_window (gcal_service : service)
  (args : FindAvailableSlotsArgs) (start_date end_date : date) (fb : freebusy_result) :
  parse_date (fa_start_date args) = Some start_date ->
  parse_date (fa_end_date args) = Some end_date ->
  let window_start := utc_instant start_date 0 0 0 in
  let window_end := utc_instant end_date 23 59 59 in
  freebusy_query gcal_service
    {| timeMin := window_start; timeMax := window_end;
       items := attendee_emails args; timeZone := "UTC" |} = Ok fb ->
  (forall cal_id data entry t,
      In (cal_id, data) fb -> errors data = false ->
      In entry (busy data) -> busy_start entry = Ok t -> t <= window_end) ->
  exists out,
    snd (find_available_slots gcal_service args) = Ok out /\
    forall slot, In slot (slots out) ->
      start_time slot < end_time slot /\
      forall t, start_time slot <= t < end_time slot -> window_start <= t < window_end.
Proof.
  intros Hs He window_start window_end Hq Hin.
  unfold find_available_slots, find_available_slots_try, start_of_day, end_of_day.
  rewrite Hs, He. fold window_start window_end. rewrite Hq.
  pose proof (collect_busy_starts (fun t => t <= window_end) fb [] ) as C.
  destruct (collect_busy fb []) as [log [all|e]]; cbn [snd bind] in *.
  - eexists. split; [reflexivity|]. rewrite slots_of_output. intros slot Hslot.
    apply available_slots_in_window in Hslot; [split; [|intros t Ht]; lia|].
    exact (C all Hin (Forall_nil _) eq_refl).
  - destruct (is_HttpError e); eexists; (split; [reflexivity|]); intros slot [].
Qed.

Lemma slots_lie_in_search_window_witness :
  let window_start := utc_instant {| year := 2025; month := 7; day := 2 |} 0 0 0 in
  let window_end := utc_instant {| year := 2025; month := 7; day := 2 |} 23 59 59 in
  exists out,
    snd (find_available_slots Sample.busy_in_window Sample.args) = Ok out /\
    forall slot, In slot (slots out) ->
      start_time slot < end_time slot /\
      forall t, start_time slot <= t < end_time slot -> window_start <= t < window_end.
Proof.
  refine (slots_lie_in_search_window Sample.busy_in_window Sample.args
            {| year := 2025; month := 7; day := 2 |}
            {| year := 2025; month := 7; day := 2 |}
            _ eq_refl eq_refl eq_refl _).
  intros cal_id data entry t [H|[]] _. inversion H; subst; clear H.
  intros [<-|[]]. cbn [busy_start]. intros [= <-]. vm_compute. discriminate.
Defined.

(** C10 as stated fails when the response holds a busy interval after the
    window: the returned slot runs from the start of the window to 10:00
    of the next day, past the final second of the end date. *)
Lemma slot_includes_final_second :
  returned_slots (snd (find_available_slots Sample.busy_next_day Sample.args))
  = [{| start_time := Sample.day_start;
        end_time := Sample.day_start + 34 * Sample.hour |}] /\
  end_of_day (fa_end_date Sample.args) = Ok (Sample.day_start + 86399000000) /\
  ~ (forall slot,
        In slot (returned_slots (snd (find_available_slots Sample.busy_next_day Sample.args))) ->
        end_time slot <= Sample.day_start + 86399000000).
Proof.
  split; [reflexivity|]. split; [reflexivity|].
  intros H. specialize (H _ (or_introl eq_refl)). vm_compute in H. now apply H.
Qed.

End GcalProps.

(** ** Properties of the tool-calling loop *)

Module AgentProps.
Import Agent.

Section Dispatcher.

Variables Args Out UserMap Service : Type.
Variable model_dump_json : Out -> pyresult string.

Lemma tools_get_unknown (d : list (string * tool Args Out UserMap Service)) (name : string) (e : exn) :
  tools_get d name = Raise e -> e = key_error name.
Proof.
  induction d as [|[k v] d IH]; cbn [tools_get].
  - now intros [= <-].
  - destruct (String.eqb k name); [discriminate | exact IH].
Qed.

Lemma try_tool_fails (self : PydanticAgent Args Out UserMap Service) (t : tool Args Out UserMap Service) (call : tool_call) (e : exn) :
  tools_get (tools self) (function_name call) = Ok t ->
  fails_with self t call e ->
  try_tool model_dump_json self t call = Raise e.
Proof.
  intros Ht [Hv | (a & Hv & Hc)]; unfold try_tool, bind; rewrite Hv; [reflexivity|].
  rewrite Ht, Hc. reflexivity.
Qed.

Lemma handle_registered (self : PydanticAgent Args Out UserMap Service) (messages : list message)
  (call : tool_call) (t : tool Args Out UserMap Service) :
  tools_get (tools self) (function_name call) = Ok t ->
  handle_tool_call model_dump_json self messages call
  = (messages ++ [tool_message model_dump_json self t call], None).
Proof.
  intros Ht. unfold handle_tool_call, tool_message. rewrite Ht.
  now destruct (try_tool model_dump_json self t call).
Qed.

Lemma handle_all_registered (self : PydanticAgent Args Out UserMap Service) (calls : list tool_call)
  (messages : list message) :
  Forall (registered self) calls ->
  exists results,
    handle_tool_calls model_dump_json self messages calls = (messages ++ results, None) /\
    Forall2 (answers model_dump_json self) calls results.
Proof.
  revert messages. induction calls as [|call calls IH]; intros messages F.
  - exists []. cbn. rewrite app_nil_r. split; [reflexivity | constructor].
  - inversion F as [|? ? [t Ht] F']; subst.
    cbn [handle_tool_calls]. rewrite (handle_registered self messages call t Ht).
    destruct (IH (messages ++ [tool_message model_dump_json self t call]) F')
      as (results & E & A).
    exists (tool_message model_dump_json self t call :: results).
    rewrite E, <- app_assoc. split; [reflexivity|].
    constructor; [now exists t | exact A].
Qed.

Lemma answered_failure (self : PydanticAgent Args Out UserMap Service) (calls : list tool_call)
  (results : list message) (call : tool_call) (t : tool Args Out UserMap Service) (e : exn) :
  Forall2 (answers model_dump_json self) calls results ->
  In call calls ->
  tools_get (tools self) (function_name call) = Ok t ->
  fails_with self t call e ->
  In (ToolMessage (id call) (function_name call) (error_content e)) results.
Proof.
  intros A Hin Ht Hf. induction A as [|c m cs ms Hcm A IH]; [destruct Hin|].
  destruct Hin as [->|Hin]; [left | right; now apply IH].
  destruct Hcm as (t' & Ht' & ->).
  rewrite Ht in Ht'. injection Ht' as <-.
  unfold tool_message. now rewrite (try_tool_fails self t call e Ht Hf).
Qed.

(** A round in which some invocation names an operation that is not in
    the catalog: the lookup raises, the rest of the round is not handled
    and no further submission is made. *)
Lemma unregistered_call_ends_round (self : PydanticAgent Args Out UserMap Service) (pre post : list tool_call)
  (call : tool_call) (messages : list message) (e : exn) :
  Forall (registered self) pre ->
  tools_get (tools self) (function_name call) = Raise e ->
  exists results,
    handle_tool_calls model_dump_json self messages (pre ++ call :: post)
    = (messages ++ results, Some (key_error (function_name call))) /\
    Forall2 (answers model_dump_json self) pre results.
Proof.
  revert messages. induction pre as [|p pre IH]; intros messages F Hu.
  - exists []. cbn [app handle_tool_calls]. unfold handle_tool_call. rewrite Hu.
    rewrite (tools_get_unknown _ _ _ Hu), app_nil_r. split; [reflexivity | constructor].
  - inversion F as [|? ? [t Ht] F']; subst.
    cbn [app handle_tool_calls]. rewrite (handle_registered self messages p t Ht).
    destruct (IH (messages ++ [tool_message model_dump_json self t p]) F' Hu)
      as (results & E & A).
    exists (tool_message model_dump_json self t p :: results).
    rewrite E, <- app_assoc. split; [reflexivity|].
    constructor; [now exists t | exact A].
Qed.

(** C5.  When the model's first response carries no invocation request
    ([tool_calls] absent or empty), that response is returned as it is,
    the conversation is left as it was, and the first submission is the
    only one made. *)
Theorem no_invocation_returns_first_response (self : PydanticAgent Args Out UserMap Service)
  (messages : list message) (response : response_message) :
  client self (first_submission self messages) = Ok response ->
  truthy (tool_calls response) = false ->
  run_conversation model_dump_json self messages
  = {| run_messages := messages;
       run_submissions := [first_submission self messages];
       run_result := Ok response |}.
Proof.
  intros Hc Ht. unfold run_conversation. fold (first_submission self messages).
  now rewrite Hc, Ht.
Qed.

(** X25.  In a round of invocations of registered operations, an invocation
    whose payload is malformed JSON or fails schema validation, or whose
    handler raises, is answered by an error tool message carrying its
    identifier; every invocation of the round is answered in issuance
    order, and the updated conversation is then submitted once more,
    without tools, the answer to that submission being the result. *)
Theorem failed_invocation_gets_error_message (self : PydanticAgent Args Out UserMap Service)
  (messages : list message) (response : response_message)
  (calls : list tool_call) (call : tool_call) (t : tool Args Out UserMap Service) (e : exn) :
  client self (first_submission self messages) = Ok response ->
  tool_calls response = Some calls ->
  Forall (registered self) calls ->
  In call calls ->
  tools_get (tools self) (function_name call) = Ok t ->
  fails_with self t call e ->
  exists results,
    let r := run_conversation model_dump_json self messages in
    run_messages r = messages ++ Response response :: results /\
    Forall2 (answers model_dump_json self) calls results /\
    In (ToolMessage (id call) (function_name call) (error_content e)) results /\
    run_submissions r
    = [first_submission self messages; final_submission (run_messages r)] /\
    run_result r = client self (final_submission (run_messages r)).
Proof.
  intros Hc Hcalls F Hin Ht Hf.
  destruct (handle_all_registered self calls (messages ++ [Response response]) F)
    as (results & E & A).
  exists results. unfold run_conversation. fold (first_submission self messages).
  rewrite Hc, Hcalls.
  assert (T : truthy (Some calls) = true) by (destruct calls; [destruct Hin | reflexivity]).
  rewrite T, E. cbn [run_messages run_submissions run_result].
  rewrite <- app_assoc. cbn [app].
  repeat split; try reflexivity; try exact A.
  exact (answered_failure self calls results call t e A Hin Ht Hf).
Qed.

End Dispatcher.

Lemma failed_invocation_gets_error_message_witness :
  let self := Sample.agent (Some [Sample.good_call; Sample.malformed_call;
                                  Sample.raising_call]) in
  let e := Exn ValidationError "Invalid JSON: EOF while parsing a value" in
  exists results,
    let r := run_conversation Sample.dump self Sample.conversation in
    run_messages r
    = Sample.conversation
      ++ Response {| content := None;
                     tool_calls := Some [Sample.good_call; Sample.malformed_call;
                                         Sample.raising_call] |} :: results /\
    Forall2 (answers Sample.dump self)
      [Sample.good_call; Sample.malformed_call; Sample.raising_call] results /\
    In (ToolMessage "call_3" "find_available_slots" (error_content e)) results /\
    run_submissions r
    = [first_submission self Sample.conversation;
       final_submission (run_messages r)] /\
    run_result r = client self (final_submission (run_messages r)).
Proof.
  intros self e.
  refine (failed_invocation_gets_error_message string string unit unit Sample.dump
            self Sample.conversation _ _ Sample.malformed_call
            Sample.calendar_operation e eq_refl eq_refl _ _ eq_refl _).
  - repeat constructor; eexists; reflexivity.
  - right. left. reflexivity.
  - left. reflexivity.
Defined.

Lemma no_invocation_returns_first_response_witness :
  run_conversation Sample.dump (Sample.agent None) Sample.conversation
  = {| run_messages := Sample.conversation;
       run_submissions := [first_submission (Sample.agent None) Sample.conversation];
       run_result := Ok {| content := None; tool_calls := None |} |}.
Proof.
  exact (no_invocation_returns_first_response string string unit unit Sample.dump
           (Sample.agent None) Sample.conversation _ eq_refl eq_refl).
Defined.

(** C4 (the code departs from it).  Two rounds in which an invocation
    with a malformed payload has a sibling that names an operation
    outside the catalog.  With the sibling second, the malformed
    invocation gets its error tool message, then the lookup of line 30
    raises [KeyError] out of [run_conversation]: the conversation is never
    submitted for the final response.  With the sibling first, the same
    exception leaves the loop before the malformed invocation is looked
    at: it gets no tool message at all. *)
Theorem failing_round_ends_at_unknown_operation :
  let e := Exn ValidationError "Invalid JSON: EOF while parsing a value" in
  let after := Sample.agent (Some [Sample.malformed_call; Sample.unknown_call]) in
  let before := Sample.agent (Some [Sample.unknown_call; Sample.malformed_call]) in
  run_conversation Sample.dump after Sample.conversation
  = {| run_messages :=
         Sample.conversation
         ++ [Response {| content := None;
                         tool_calls := Some [Sample.malformed_call; Sample.unknown_call] |};
             ToolMessage "call_3" "find_available_slots" (error_content e)];
       run_submissions := [first_submission after Sample.conversation];
       run_result := Raise (key_error "make_coffee") |} /\
  run_conversation Sample.dump before Sample.conversation
  = {| run_messages :=
         Sample.conversation
         ++ [Response {| content := None;
                         tool_calls := Some [Sample.unknown_call; Sample.malformed_call] |}];
       run_submissions := [first_submission before Sample.conversation];
       run_result := Raise (key_error "make_coffee") |}.
Proof.
  intros e after before.
  assert (U : forall calls,
             tools_get (tools (Sample.agent calls)) (function_name Sample.unknown_call)
             = Raise (key_error "make_coffee")) by reflexivity.
  split.
  - assert (F : Forall (registered after) [Sample.malformed_call]).
    { constructor; [|constructor]. exists Sample.calendar_operation. reflexivity. }
    destruct (unregistered_call_ends_round string string unit unit Sample.dump after
                [Sample.malformed_call] [] Sample.unknown_call
                (Sample.conversation
                 ++ [Response {| content := None;
                                 tool_calls := Some [Sample.malformed_call;
                                                     Sample.unknown_call] |}])
                _ F (U _)) as (results & E & A).
    inversion A as [|c m cs ms (t & Ht & Hm) A']; subst. inversion A'; subst.
    assert (Et : t = Sample.calendar_operation) by (cbn in Ht; congruence). subst t.
    unfold run_conversation.
    cbn [client after Sample.agent init Sample.scripted_client sub_tools tool_calls truthy].
    cbn [app] in E. cbn [app]. rewrite E. reflexivity.
  - destruct (unregistered_call_ends_round string string unit unit Sample.dump before
                [] [Sample.malformed_call] Sample.unknown_call
                (Sample.conversation
                 ++ [Response {| content := None;
                                 tool_calls := Some [Sample.unknown_call;
                                                     Sample.malformed_call] |}])
                _ (Forall_nil _) (U _)) as (results & E & A).
    inversion A; subst. rewrite app_nil_r in E.
    unfold run_conversation.
    cbn [client before Sample.agent init Sample.scripted_client sub_tools tool_calls truthy].
    cbn [app] in E. cbn [app]. rewrite E. reflexivity.
Qed.

(** C2 (the code departs from it).  A round whose first invocation names
    an operation that is not in the catalog: the lookup of line 30, made
    before the [try], raises [KeyError] out of [run_conversation].  Only
    the model's message has been appended: there is no tool message for
    the invocation nor for its sibling, which is not handled, and the
    first submission is the only one made. *)
Theorem unknown_operation_aborts_round :
  let self := Sample.agent (Some [Sample.unknown_call; Sample.good_call]) in
  let r := run_conversation Sample.dump self Sample.conversation in
  run_result r = Raise (key_error "make_coffee") /\
  run_messages r
  = Sample.conversation
    ++ [Response {| content := None;
                    tool_calls := Some [Sample.unknown_call; Sample.good_call] |}] /\
  (forall call_id name text, ~ In (ToolMessage call_id name text) (run_messages r)) /\
  run_submissions r = [first_submission self Sample.conversation].
Proof.
  intros self r.
  assert (U : tools_get (tools self) (function_name Sample.unknown_call)
              = Raise (key_error "make_coffee")) by reflexivity.
  destruct (unregistered_call_ends_round string string unit unit Sample.dump self
              [] [Sample.good_call] Sample.unknown_call
              (Sample.conversation
               ++ [Response {| content := None;
                               tool_calls := Some [Sample.unknown_call;
                                                   Sample.good_call] |}])
              _ (Forall_nil _) U) as (results & E & A).
  inversion A; subst. rewrite app_nil_r in E.
  assert (R : r = {| run_messages :=
                       Sample.conversation
                       ++ [Response {| content := None;
                                       tool_calls := Some [Sample.unknown_call;
                                                           Sample.good_call] |}];
                     run_submissions := [first_submission self Sample.conversation];
                     run_result := Raise (key_error "make_coffee") |}).
  { unfold r, run_conversation. cbn [client self Sample.agent init Sample.scripted_client
      sub_tools tool_calls truthy]. cbn [app] in E. rewrite E. reflexivity. }
  rewrite R. cbn [run_result run_messages run_submissions].
  repeat split.
  intros call_id name text H. cbn in H.
  destruct H as [H|[H|[H|[]]]]; discriminate H.
Qed.

End AgentProps.

(** ** Further properties of the calendar operations *)

Module GcalMore.
Import Gcal GcalProps.

(** *** [parse_email] *)

Lemma existsb_eqb_In (x : string) (l : list string) :
  existsb (String.eqb x) l = true <-> In x l.
Proof.
  rewrite existsb_exists. split.
  - intros (y & Hy & E). apply String.eqb_eq in E. now subst.
  - intros H. exists x. split; [exact H | apply String.eqb_refl].
Qed.

Lemma infer_fold_In (email_body : string) (user_map : list (string * string))
  (acc : list string) (e : string) :
  In e (fold_left (infer_step email_body) user_map acc) <->
  In e acc \/ exists user_id, In (user_id, e) user_map /\ mentions email_body (user_id, e) = true.
Proof.
  revert acc. induction user_map as [|[uid em] user_map IH]; intro acc; cbn [fold_left].
  - split; [now left | intros [H|(u & [] & _)]; exact H].
  - rewrite IH. unfold infer_step at 1. cbn [snd].
    destruct (mentions email_body (uid, em)) eqn:M.
    + destruct (existsb (String.eqb em) acc) eqn:X.
      * apply existsb_eqb_In in X. split.
        -- intros [H|(u & H & Hm)]; [now left | right; exists u; split; [now right | exact Hm]].
        -- intros [H|(u & [H|H] & Hm)]; [now left | | right; exists u; now split].
           injection H as -> ->. now left.
      * rewrite in_app_iff. split.
        -- intros [[H|[->|[]]]|(u & H & Hm)]; [now left | | ].
           ++ right. exists uid. split; [now left | exact M].
           ++ right. exists u. split; [now right | exact Hm].
        -- intros [H|(u & [H|H] & Hm)].
           ++ left. now left.
           ++ injection H as -> ->. left. right. now left.
           ++ right. exists u. now split.
    + split.
      * intros [H|(u & H & Hm)]; [now left | right; exists u; split; [now right | exact Hm]].
      * intros [H|(u & [H|H] & Hm)]; [now left | | right; exists u; now split].
        injection H as -> ->. rewrite M in Hm. discriminate.
Qed.

Lemma infer_fold_NoDup (email_body : string) (user_map : list (string * string))
  (acc : list string) :
  NoDup acc -> NoDup (fold_left (infer_step email_body) user_map acc).
Proof.
  revert acc. induction user_map as [|[uid em] user_map IH]; intros acc N; cbn [fold_left].
  - exact N.
  - apply IH. unfold infer_step. cbn [snd].
    destruct (mentions email_body (uid, em)); [|exact N].
    destruct (existsb (String.eqb em) acc) eqn:X; [exact N|].
    apply NoDup_app; [exact N | repeat constructor; intros [] | ].
    intros x Hx [<-|[]].
    apply existsb_eqb_In in Hx. rewrite Hx in X. discriminate.
Qed.

(** X1.  The attendees inferred by [parse_email] are exactly the emails of
    the items of the user map whose user id or email occurs in the email
    text, compared in lower case; no email is listed twice. *)
Theorem parse_email_attendees (args : ParseEmailArgs)
  (user_map : list (string * string)) (now : string) :
  NoDup (inferred_attendees (snd (parse_email args user_map now))) /\
  forall email,
    In email (inferred_attendees (snd (parse_email args user_map now))) <->
    exists user_id,
      In (user_id, email) user_map /\
      (occurs_in (lower user_id) (lower (email_content args))
       || occurs_in (lower email) (lower (email_content args))) = true.
Proof.
  cbn [parse_email snd inferred_attendees]. split.
  - apply infer_fold_NoDup. constructor.
  - intro email. rewrite infer_fold_In. unfold mentions. cbn [fst snd].
    split; [intros [[]|H]; exact H | now right].
Qed.

(** *** [retrieve_calendar_events] *)

Lemma format_event_formats (ev : event) (c : CalendarEvent) :
  format_event ev = Ok c -> formats_to ev c.
Proof.
  unfold formats_to, format_event, get_required, bind.
  destruct (summary ev) as [t|]; [|discriminate].
  destruct (start ev) as [s|]; [|discriminate].
  destruct (end_ ev) as [e|]; [|discriminate].
  destruct (time_text s) as [s'|] eqn:Es; [|discriminate].
  destruct (time_text e) as [e'|] eqn:Ee; [|discriminate].
  intros [= <-]. exists s, e. cbn. repeat split; assumption.
Qed.

Lemma format_event_complete (ev : event) :
  complete_event ev <-> exists c, format_event ev = Ok c.
Proof.
  unfold format_event, get_required, bind. split.
  - intros (t & s & e & s' & e' & -> & -> & -> & Hs & He).
    rewrite Hs, He. eexists. reflexivity.
  - intros [c H]. unfold complete_event.
    destruct (summary ev) as [t|]; [|discriminate].
    destruct (start ev) as [s|]; [|discriminate].
    destruct (end_ ev) as [e|]; [|discriminate].
    destruct (time_text s) as [s'|] eqn:Es; [|discriminate].
    destruct (time_text e) as [e'|] eqn:Ee; [|discriminate].
    exists t, s, e, s', e'. repeat split; assumption.
Qed.

Lemma mapM_format_complete (listed : list event) :
  Forall complete_event listed ->
  exists formatted,
    mapM format_event listed = Ok formatted /\ Forall2 formats_to listed formatted.
Proof.
  induction 1 as [|ev listed Hev _ (formatted & E & F)].
  - exists []. split; [reflexivity | constructor].
  - apply format_event_complete in Hev. destruct Hev as [c Hc].
    exists (c :: formatted). cbn [mapM]. rewrite Hc, E. split; [reflexivity|].
    constructor; [now apply format_event_formats | exact F].
Qed.

Lemma mapM_format_incomplete (listed : list event) (ev : event) :
  In ev listed -> ~ complete_event ev -> exists e, mapM format_event listed = Raise e.
Proof.
  induction listed as [|x listed IH]; [intros []|]. intros Hin Hn. cbn [mapM].
  destruct (format_event x) as [c|e] eqn:Ex; [|now exists e].
  destruct Hin as [->|Hin].
  - exfalso. apply Hn, format_event_complete. now exists c.
  - destruct (IH Hin Hn) as [e ->]. now exists e.
Qed.

(** X2.  When both dates parse and every listed event is complete
    (summary, start and end present, each of start and end with a
    [dateTime] or a [date]), an empty listing gives the status
    [No upcoming events found.] with no events and no error, and a
    non-empty listing gives one formatted event per listed event, in the
    listed order, with the summary as title and start and end taken from
    [dateTime] when present and from [date] otherwise, with no status and
    no error. *)
Theorem listed_events_are_formatted (gcal_service : service)
  (args : RetrieveCalendarEventsArgs) (start_time end_time : Z) (listed : list event) :
  start_of_day (rc_start_date args) = Ok start_time ->
  end_of_day (rc_end_date args) = Ok end_time ->
  events_list gcal_service
    {| calendarId := "primary"; ev_timeMin := start_time; ev_timeMax := end_time;
       singleEvents := true; orderBy := "startTime" |} = Ok listed ->
  Forall complete_event listed ->
  exists formatted,
    Forall2 formats_to listed formatted /\
    snd (retrieve_calendar_events gcal_service args)
    = Ok match listed with
         | [] => {| events := []; rc_status := Some "No upcoming events found.";
                    rc_error := None |}
         | _ :: _ => {| events := formatted; rc_status := None; rc_error := None |}
         end.
Proof.
  intros Hs He Hl Hc.
  destruct (mapM_format_complete listed Hc) as (formatted & E & F).
  exists formatted. split; [exact F|].
  unfold retrieve_calendar_events, retrieve_calendar_events_try, bind.
  cbn [snd]. rewrite Hs, He, Hl.
  destruct listed as [|ev listed]; [reflexivity | now rewrite E].
Qed.

Lemma listed_events_are_formatted_witness :
  exists formatted,
    Forall2 formats_to [Fixtures.standup; Fixtures.offsite] formatted /\
    snd (retrieve_calendar_events
           (Fixtures.listing [Fixtures.standup; Fixtures.offsite]) Sample.events_args)
    = Ok {| events := formatted; rc_status := None; rc_error := None |}.
Proof.
  refine (listed_events_are_formatted
            (Fixtures.listing [Fixtures.standup; Fixtures.offsite]) Sample.events_args
            Sample.day_start Fixtures.day_end [Fixtures.standup; Fixtures.offsite]
            eq_refl eq_refl eq_refl _).
  repeat constructor; unfold complete_event; repeat eexists.
Defined.

(** X3.  When the calendar lists an event that is not complete, the whole
    call gives an error result: the error field is populated and no event
    is returned, not even the complete ones listed before it. *)
Theorem incomplete_event_gives_error (gcal_service : service)
  (args : RetrieveCalendarEventsArgs) (start_time end_time : Z)
  (listed : list event) (ev : event) :
  start_of_day (rc_start_date args) = Ok start_time ->
  end_of_day (rc_end_date args) = Ok end_time ->
  events_list gcal_service
    {| calendarId := "primary"; ev_timeMin := start_time; ev_timeMax := end_time;
       singleEvents := true; orderBy := "startTime" |} = Ok listed ->
  In ev listed ->
  ~ complete_event ev ->
  exists msg,
    snd (retrieve_calendar_events gcal_service args)
    = Ok {| events := []; rc_status := None; rc_error := Some msg |}.
Proof.
  intros Hs He Hl Hin Hn.
  destruct (mapM_format_incomplete listed ev Hin Hn) as [e E].
  unfold retrieve_calendar_events, retrieve_calendar_events_try, bind.
  cbn [snd]. rewrite Hs, He, Hl.
  destruct listed as [|x listed]; [destruct Hin|]. rewrite E.
  destruct (is_HttpError e); eexists; reflexivity.
Qed.

Lemma untitled_is_incomplete : ~ complete_event Fixtures.untitled.
Proof. intros (t & s & e & s' & e' & H & _). discriminate H. Qed.

Lemma incomplete_event_gives_error_witness :
  exists msg,
    snd (retrieve_calendar_events
           (Fixtures.listing [Fixtures.standup; Fixtures.untitled]) Sample.events_args)
    = Ok {| events := []; rc_status := None; rc_error := Some msg |}.
Proof.
  exact (incomplete_event_gives_error
           (Fixtures.listing [Fixtures.standup; Fixtures.untitled]) Sample.events_args
           Sample.day_start Fixtures.day_end [Fixtures.standup; Fixtures.untitled]
           Fixtures.untitled eq_refl eq_refl eq_refl (or_intror (or_introl eq_refl))
           untitled_is_incomplete).
Defined.

(** *** [find_available_slots] *)

Lemma find_reads (gcal_service : service) (args : FindAvailableSlotsArgs)
  (window_start window_end : Z) (raw : list interval) :
  reads gcal_service args window_start window_end raw ->
  snd (find_available_slots gcal_service args)
  = Ok (slots_output
          (available_slots_of window_start window_end (duration_minutes args) raw)).
Proof.
  intros (Hs & He & fb & Hq & Hc).
  unfold find_available_slots, find_available_slots_try. rewrite Hs, He, Hq.
  destruct (collect_busy fb []) as [log r]. cbn [snd] in *. now subst r.
Qed.

Lemma find_cases (gcal_service : service) (args : FindAvailableSlotsArgs) :
  (exists window_start window_end raw,
      reads gcal_service args window_start window_end raw) \/
  (exists msg,
      snd (find_available_slots gcal_service args)
      = Ok {| slots := []; fa_status := None; fa_error := Some msg |}).
Proof.
  unfold reads, find_available_slots, find_available_slots_try.
  destruct (start_of_day (fa_start_date args)) as [ws|e1].
  - destruct (end_of_day (fa_end_date args)) as [we|e2].
    + destruct (freebusy_query gcal_service _) as [fb|e3] eqn:Hq.
      * destruct (collect_busy fb []) as [log [raw|e4]] eqn:Hc.
        -- left. exists ws, we, raw. repeat split. exists fb.
           split; [exact Hq | now rewrite Hc].
        -- right. cbn [snd bind]. destruct (is_HttpError e4); eexists; reflexivity.
      * right. cbn [snd]. destruct (is_HttpError e3); eexists; reflexivity.
    + right. cbn [snd]. destruct (is_HttpError e2); eexists; reflexivity.
  - right. cbn [snd]. destruct (is_HttpError e1); eexists; reflexivity.
Qed.

(** X4.  Both calendar operations always return a result, in one of three
    shapes: the slots (or events) alone, the status alone with nothing
    else, or the error alone with nothing else.  In particular no
    exception of the calendar service, of date parsing or of the response
    data propagates to the caller. *)
Theorem outputs_have_one_shape (gcal_service : service)
  (slot_args : FindAvailableSlotsArgs) (event_args : RetrieveCalendarEventsArgs) :
  (exists out,
      snd (find_available_slots gcal_service slot_args) = Ok out /\ slots_shape out) /\
  (exists out,
      snd (retrieve_calendar_events gcal_service event_args) = Ok out /\ events_shape out).
Proof.
  split.
  - destruct (find_cases gcal_service slot_args) as [(ws & we & raw & R)|[msg E]].
    + rewrite (find_reads _ _ _ _ _ R). eexists. split; [reflexivity|].
      unfold slots_shape.
      destruct (available_slots_of ws we (duration_minutes slot_args) raw); cbn.
      * right. left. repeat split.
      * left. repeat split. discriminate.
    + rewrite E. eexists. split; [reflexivity|]. right. right. cbn. repeat split.
      now exists msg.
  - unfold retrieve_calendar_events, retrieve_calendar_events_try, bind. cbn [snd].
    assert (Err : forall e : exn,
               exists out,
                 (if is_HttpError e
                  then Ok {| events := []; rc_status := None;
                             rc_error := Some ("An API error occurred: " ++ exn_str e)%string |}
                  else Ok {| events := []; rc_status := None;
                             rc_error := Some ("An unexpected error occurred: "
                                               ++ exn_str e)%string |})
                 = Ok out /\ events_shape out).
    { intro e. destruct (is_HttpError e); eexists; (split; [reflexivity|]);
        right; right; cbn; repeat split; eexists; reflexivity. }
    destruct (start_of_day (rc_start_date event_args)) as [ws|e1]; [|apply Err].
    destruct (end_of_day (rc_end_date event_args)) as [we|e2]; [|apply Err].
    destruct (events_list gcal_service _) as [[|ev listed]|e3]; [| |apply Err].
    + eexists. split; [reflexivity|]. right. left. cbn. repeat split.
    + destruct (mapM format_event (ev :: listed)) as [formatted|e4] eqn:E; [|apply Err].
      eexists. split; [reflexivity|]. left. cbn. repeat split.
      cbn [mapM] in E. destruct (format_event ev); [|discriminate].
      destruct (mapM format_event listed); [|discriminate].
      injection E as <-. discriminate.
Qed.

(** X6.  Whatever the response holds, a returned slot is never empty and
    never shorter than the requested duration. *)
Theorem returned_slots_are_long_enough (gcal_service : service)
  (args : FindAvailableSlotsArgs) (slot : TimeSlot) :
  In slot (returned_slots (snd (find_available_slots gcal_service args))) ->
  start_time slot < end_time slot /\
  timedelta_minutes (duration_minutes args) <= end_time slot - start_time slot.
Proof.
  destruct (find_cases gcal_service args) as [(ws & we & raw & R)|[msg E]].
  - rewrite (find_reads _ _ _ _ _ R). cbn [returned_slots]. rewrite slots_of_output.
    unfold available_slots_of. rewrite walk_slots_from. apply walk_from_lengths.
  - rewrite E. intros [].
Qed.

Lemma returned_slots_are_long_enough_witness :
  let slot := {| start_time := Sample.day_start;
                 end_time := Sample.day_start + 9 * Sample.hour |} in
  start_time slot < end_time slot /\
  timedelta_minutes (duration_minutes Sample.args) <= end_time slot - start_time slot.
Proof.
  intro slot.
  exact (returned_slots_are_long_enough Sample.busy_in_window Sample.args slot
           (or_introl eq_refl)).
Defined.

Lemma merge_from_sorted (rest : list interval) (cur : interval) :
  StronglySorted by_start (cur :: rest) -> StronglySorted by_start (merge_from cur rest).
Proof.
  revert cur. induction rest as [|n rest IH]; intros cur S; cbn [merge_from].
  - exact S.
  - inversion S as [|? ? Srest Hcur]; subst.
    inversion Srest as [|? ? Srest' Hn]; subst.
    inversion Hcur as [|? ? Hcn Hcrest]; subst.
    destruct (fst n <? snd cur).
    + apply IH. constructor; [exact Srest'|].
      eapply Forall_impl; [|exact Hcrest]. unfold by_start. cbn. auto.
    + constructor; [now apply IH|].
      eapply Forall_impl; [|apply merge_from_starts]. cbn.
      intros i [H|H]; unfold by_start in *.
      * lia.
      * apply in_map_iff in H. destruct H as (j & Hj & Hin).
        rewrite Forall_forall in Hn. specialize (Hn j Hin). unfold by_start in *. lia.
Qed.

Lemma merge_busy_sorted (l : list interval) :
  StronglySorted by_start l -> StronglySorted by_start (merge_busy l).
Proof.
  destruct l as [|cur rest]; [constructor|]. intros S.
  rewrite merge_busy_from. now apply merge_from_sorted.
Qed.

Lemma walk_from_avoids (we D : Z) (l : list interval) (c : Z) (s : TimeSlot) :
  StronglySorted by_start l ->
  In s (walk_from we D c l) ->
  c <= start_time s /\ forall t, start_time s <= t < end_time s -> ~ busy_at l t.
Proof.
  revert c. induction l as [|b l IH]; intros c S; cbn [walk_from].
  - destruct ((we >? c) && (we - c >=? D)); [|intros []].
    intros [<-|[]]. cbn. split; [lia|]. intros t _. apply busy_at_nil.
  - inversion S as [|? ? Sl Hb]; subst. rewrite in_app_iff. intros [H|H].
    + destruct ((fst b >? c) && (fst b - c >=? D)); [|destruct H].
      destruct H as [<-|[]]. cbn. split; [lia|].
      intros t Ht. rewrite busy_at_cons. intros [B|(i & Hi & Bi)]; [lia|].
      rewrite Forall_forall in Hb. specialize (Hb i Hi). unfold by_start in Hb. lia.
    + destruct (IH _ Sl H) as [H1 H2]. split; [lia|].
      intros t Ht. rewrite busy_at_cons. intros [B|B]; [lia | now apply (H2 t)].
Qed.

(** X7.  Whatever the response holds (intervals in any order, overlapping,
    reaching outside the window), no returned slot contains an instant at
    which a participant whose calendar was read is busy. *)
Theorem returned_slots_avoid_busy_time (gcal_service : service)
  (args : FindAvailableSlotsArgs) (window_start window_end : Z)
  (raw : list interval) (slot : TimeSlot) (t : Z) :
  reads gcal_service args window_start window_end raw ->
  In slot (returned_slots (snd (find_available_slots gcal_service args))) ->
  start_time slot <= t < end_time slot ->
  window_start <= t /\ ~ busy_at raw t.
Proof.
  intros R. rewrite (find_reads _ _ _ _ _ R). cbn [returned_slots].
  rewrite slots_of_output. unfold available_slots_of. rewrite walk_slots_from.
  intros Hin Ht.
  pose proof (merge_busy_sorted _ (sort_by_start_sorted raw)) as S.
  destruct (walk_from_avoids _ _ _ _ _ S Hin) as [H1 H2].
  split; [lia|]. intro B. apply (H2 t Ht). now apply merged_same_busy_time.
Qed.

Lemma sample_reads :
  reads Sample.busy_in_window Sample.args Sample.day_start Fixtures.day_end
    [(Sample.day_start + 9 * Sample.hour, Sample.day_start + 10 * Sample.hour)].
Proof.
  split; [reflexivity|]. split; [reflexivity|]. eexists. split; reflexivity.
Defined.

Lemma returned_slots_avoid_busy_time_witness :
  Sample.day_start <= Sample.day_start /\
  ~ busy_at [(Sample.day_start + 9 * Sample.hour, Sample.day_start + 10 * Sample.hour)]
      Sample.day_start.
Proof.
  refine (returned_slots_avoid_busy_time Sample.busy_in_window Sample.args
            Sample.day_start Fixtures.day_end _
            {| start_time := Sample.day_start;
               end_time := Sample.day_start + 9 * Sample.hour |}
            Sample.day_start sample_reads (or_introl eq_refl) _).
  cbn [start_time end_time]. unfold Sample.day_start, Sample.hour. lia.
Defined.

Lemma collect_nothing (fb : freebusy_result) (acc : list interval) :
  Forall (fun cd => errors (snd cd) = true \/ busy (snd cd) = []) fb ->
  snd (collect_busy fb acc) = Ok acc.
Proof.
  induction 1 as [|[cal_id data] fb H _ IH]; [reflexivity|].
  cbn [collect_busy]. cbn [snd] in H. destruct (errors data) eqn:E.
  - destruct (collect_busy fb acc). exact IH.
  - destruct H as [H|H]; [discriminate|]. rewrite H. cbn [mapM].
    now rewrite app_nil_r.
Qed.

(** X8.  When the response lists no calendar, or only calendars that are
    in error or have no busy interval (and the dates parse), and the
    requested duration is one a [timedelta] can hold, the whole window is
    returned as one slot if it is non-empty and at least as long as the
    requested duration; otherwise the status [No common slots found.] is
    returned. *)
Theorem no_busy_time_gives_whole_window (gcal_service : service)
  (args : FindAvailableSlotsArgs) (window_start window_end : Z) (fb : freebusy_result) :
  start_of_day (fa_start_date args) = Ok window_start ->
  end_of_day (fa_end_date args) = Ok window_end ->
  freebusy_query gcal_service
    {| timeMin := window_start; timeMax := window_end;
       items := attendee_emails args; timeZone := "UTC" |} = Ok fb ->
  Forall (fun cd => errors (snd cd) = true \/ busy (snd cd) = []) fb ->
  timedelta_representable (duration_minutes args) ->
  snd (find_available_slots gcal_service args)
  = Ok (if (window_start <? window_end)
           && (timedelta_minutes (duration_minutes args) <=? window_end - window_start)
        then {| slots := [{| start_time := window_start; end_time := window_end |}];
                fa_status := None; fa_error := None |}
        else {| slots := []; fa_status := Some "No common slots found.";
                fa_error := None |}).
Proof.
  intros Hs He Hq Hf _.
  assert (R : reads gcal_service args window_start window_end []).
  { split; [exact Hs|]. split; [exact He|]. exists fb. split; [exact Hq|].
    now apply collect_nothing. }
  rewrite (find_reads _ _ _ _ _ R). f_equal.
  unfold available_slots_of. cbn [sort_by_start merge_busy]. rewrite walk_slots_from.
  cbn [walk_from]. rewrite Z.gtb_ltb, Z.geb_leb.
  now destruct ((window_start <? window_end)
                && (timedelta_minutes (duration_minutes args)
                    <=? window_end - window_start)).
Qed.

Lemma no_busy_time_gives_whole_window_witness :
  snd (find_available_slots Fixtures.nothing_busy Sample.args)
  = Ok {| slots := [{| start_time := Sample.day_start; end_time := Fixtures.day_end |}];
          fa_status := None; fa_error := None |}.
Proof.
  refine (no_busy_time_gives_whole_window Fixtures.nothing_busy Sample.args
            Sample.day_start Fixtures.day_end _ eq_refl eq_refl eq_refl _ _).
  - constructor; [left; reflexivity|]. constructor; [right; reflexivity | constructor].
  - unfold timedelta_representable. cbn. lia.
Defined.

(** X9.  When the busy intervals read from the response start no later
    than the window ends and together cover every instant of the window,
    no slot is returned and the result is the status
    [No common slots found.], not an error. *)
Theorem covered_window_gives_status (gcal_service : service)
  (args : FindAvailableSlotsArgs) (window_start window_end : Z) (raw : list interval) :
  reads gcal_service args window_start window_end raw ->
  Forall (fun i => fst i <= window_end) raw ->
  (forall t, window_start <= t < window_end -> busy_at raw t) ->
  snd (find_available_slots gcal_service args)
  = Ok {| slots := []; fa_status := Some "No common slots found."; fa_error := None |}.
Proof.
  intros R F Hcov. rewrite (find_reads _ _ _ _ _ R). f_equal.
  destruct (available_slots_of window_start window_end (duration_minutes args) raw)
    as [|s sl] eqn:E; [reflexivity|]. exfalso.
  assert (Hin : In s (available_slots_of window_start window_end
                        (duration_minutes args) raw)) by (rewrite E; now left).
  destruct (available_slots_in_window _ _ _ _ _ F Hin) as (H1 & H2 & H3).
  unfold available_slots_of in Hin. rewrite walk_slots_from in Hin.
  pose proof (merge_busy_sorted _ (sort_by_start_sorted raw)) as S.
  destruct (walk_from_avoids _ _ _ _ _ S Hin) as [_ H4].
  apply (H4 (start_time s)); [lia|].
  apply merged_same_busy_time. apply Hcov. lia.
Qed.

Lemma covered_window_gives_status_witness :
  snd (find_available_slots Fixtures.busy_all_day Sample.args)
  = Ok {| slots := []; fa_status := Some "No common slots found."; fa_error := None |}.
Proof.
  assert (R : reads Fixtures.busy_all_day Sample.args Sample.day_start Fixtures.day_end
                [(Sample.day_start, Sample.day_start + 24 * Sample.hour)]).
  { split; [reflexivity|]. split; [reflexivity|]. eexists. split; reflexivity. }
  refine (covered_window_gives_status Fixtures.busy_all_day Sample.args
            Sample.day_start Fixtures.day_end _ R _ _).
  - constructor; [|constructor]. cbn [fst].
    unfold Fixtures.day_end, Sample.day_start. lia.
  - intros t Ht. exists (Sample.day_start, Sample.day_start + 24 * Sample.hour).
    split; [now left|]. cbn [fst snd].
    unfold Fixtures.day_end, Sample.day_start, Sample.hour in *. lia.
Defined.

Lemma slots_membership (window_start window_end minutes : Z) (raw : list interval)
  (a b : Z) :
  Forall (fun i => well_formed i /\ fst i <= window_end) raw ->
  In {| start_time := a; end_time := b |}
     (available_slots_of window_start window_end minutes raw) <->
  maximal_gap window_start window_end raw a b /\ timedelta_minutes minutes <= b - a.
Proof.
  intros F. unfold available_slots_of. rewrite walk_slots_from.
  pose proof (merged_obstacles window_end raw F) as O.
  pose proof (merged_same_busy_time raw) as B.
  split.
  - intros Hin.
    destruct (walk_from_lengths _ _ _ _ _ Hin) as [Hab HD].
    destruct (walk_from_sound window_end _ _ _ _ O Hin) as (H1 & H2 & H3 & H4 & H5).
    cbn [start_time end_time] in *. split; [|exact HD].
    apply (maximal_gap_same_busy _ _ (merge_busy (sort_by_start raw)) raw); [exact B|].
    split; [exact Hab|]. split; [|split]; try assumption.
    intros t Ht. split; [lia | now apply H3].
  - intros [G HD].
    apply (maximal_gap_same_busy _ _ raw (merge_busy (sort_by_start raw))) in G;
      [|intro t; symmetry; apply B].
    destruct G as (Hab & Hfree & Hl & Hr).
    apply walk_from_complete; try assumption.
    + destruct (Hfree a) as [? _]; lia.
    + destruct (Hfree (b - 1)) as [? _]; lia.
    + intros t Ht. now destruct (Hfree t Ht).
Qed.

Lemma ascending_same_members (l1 l2 : list TimeSlot) :
  starts_ascending l1 -> starts_ascending l2 ->
  (forall s, In s l1 <-> In s l2) -> l1 = l2.
Proof.
  unfold starts_ascending. intros S1. revert l2.
  induction S1 as [|x l1 S1 IH Hx]; intros l2 S2 H.
  - destruct l2 as [|y l2]; [reflexivity|]. destruct (proj2 (H y)). now left.
  - destruct S2 as [|y l2 S2 Hy]; [destruct (proj1 (H x)); now left|].
    rewrite Forall_forall in Hx, Hy.
    assert (E : x = y).
    { destruct (proj1 (H x) (or_introl eq_refl)) as [E|Hxin]; [now symmetry|].
      destruct (proj2 (H y) (or_introl eq_refl)) as [E|Hyin]; [exact E|].
      specialize (Hx y Hyin). specialize (Hy x Hxin). lia. }
    subst y. f_equal. apply IH; [exact S2|].
    intro s. split; intro Hs.
    + destruct (proj1 (H s) (or_intror Hs)) as [<-|?]; [|assumption].
      specialize (Hx x Hs). lia.
    + destruct (proj2 (H s) (or_intror Hs)) as [<-|?]; [|assumption].
      specialize (Hy x Hs). lia.
Qed.

Lemma available_slots_ascending (window_start window_end minutes : Z)
  (raw : list interval) :
  Forall (fun i => well_formed i /\ fst i <= window_end) raw ->
  starts_ascending (available_slots_of window_start window_end minutes raw).
Proof.
  intros F. unfold available_slots_of. rewrite walk_slots_from.
  apply walk_from_ordered. now apply merged_obstacles.
Qed.

(** X10.  The slots depend only on the busy time, not on how it is split
    into intervals, among which participants, or in which order it is
    listed: two collections of Busy Intervals (start before end, starting
    no later than the window ends) that cover the same instants give the
    same slots. *)
Theorem slots_depend_on_busy_time_only (window_start window_end minutes : Z)
  (raw raw' : list interval) :
  Forall (fun i => well_formed i /\ fst i <= window_end) raw ->
  Forall (fun i => well_formed i /\ fst i <= window_end) raw' ->
  same_busy_time raw raw' ->
  available_slots_of window_start window_end minutes raw
  = available_slots_of window_start window_end minutes raw'.
Proof.
  intros F F' B. apply ascending_same_members.
  - now apply available_slots_ascending.
  - now apply available_slots_ascending.
  - intros [a b]. rewrite (slots_membership _ _ _ raw a b F).
    rewrite (slots_membership _ _ _ raw' a b F').
    split; intros [G HD]; (split; [|exact HD]).
    + now apply (maximal_gap_same_busy _ _ raw raw').
    + apply (maximal_gap_same_busy _ _ raw' raw); [|exact G].
      intro t. symmetry. apply B.
Qed.

Lemma slots_depend_on_busy_time_only_witness :
  let raw := [(0, 3600000000); (1800000000, 5400000000)] in
  let raw' := [(1800000000, 5400000000); (0, 1800000000)] in
  Forall (fun i => well_formed i /\ fst i <= 7200000000) raw /\
  Forall (fun i => well_formed i /\ fst i <= 7200000000) raw' /\
  same_busy_time raw raw' /\
  available_slots_of 0 7200000000 30 raw = available_slots_of 0 7200000000 30 raw'.
Proof.
  intros raw raw'.
  assert (F : Forall (fun i => well_formed i /\ fst i <= 7200000000) raw)
    by (repeat constructor; unfold well_formed; cbn; lia).
  assert (F' : Forall (fun i => well_formed i /\ fst i <= 7200000000) raw')
    by (repeat constructor; unfold well_formed; cbn; lia).
  assert (B : same_busy_time raw raw').
  { intro t. unfold raw, raw'. rewrite !busy_at_cons. cbn [fst snd].
    pose proof (busy_at_nil t) as N.
    assert (A : 0 <= t < 3600000000 \/ 1800000000 <= t < 5400000000 <->
                1800000000 <= t < 5400000000 \/ 0 <= t < 1800000000) by lia.
    tauto. }
  split; [exact F|]. split; [exact F'|]. split; [exact B|].
  exact (slots_depend_on_busy_time_only 0 7200000000 30 raw raw' F F' B).
Defined.

Lemma mapM_parse_bad (entries : list busy_entry) (entry : busy_entry) :
  In entry entries ->
  (exists e, busy_start entry = Raise e \/ busy_end entry = Raise e) ->
  exists e, mapM parse_entry entries = Raise e.
Proof.
  induction entries as [|x entries IH]; [intros []|]. intros Hin Hbad. cbn [mapM].
  destruct (parse_entry x) as [i|e] eqn:Ex; [|now exists e].
  destruct Hin as [->|Hin].
  - exfalso. unfold parse_entry, bind in Ex. destruct Hbad as [e [H|H]]; rewrite H in Ex.
    + discriminate.
    + destruct (busy_start entry); discriminate.
  - destruct (IH Hin Hbad) as [e ->]. now exists e.
Qed.

Lemma collect_busy_bad (fb : freebusy_result) (acc : list interval)
  (cal_id : string) (data : calendar_data) (entry : busy_entry) :
  In (cal_id, data) fb -> errors data = false -> In entry (busy data) ->
  (exists e, busy_start entry = Raise e \/ busy_end entry = Raise e) ->
  exists e, snd (collect_busy fb acc) = Raise e.
Proof.
  revert acc. induction fb as [|[c d] fb IH]; intros acc Hin Herr Hentry Hbad;
    [destruct Hin|].
  cbn [collect_busy]. destruct (errors d) eqn:E.
  - destruct Hin as [H|Hin]; [injection H as -> ->; congruence|].
    destruct (IH acc Hin Herr Hentry Hbad) as [e He].
    destruct (collect_busy fb acc). now exists e.
  - destruct (mapM parse_entry (busy d)) as [parsed|e] eqn:Em; [|now exists e].
    destruct Hin as [H|Hin].
    + injection H as -> ->.
      destruct (mapM_parse_bad _ _ Hentry Hbad) as [e He]. congruence.
    + now apply IH.
Qed.

(** X11.  A busy entry whose start or end cannot be read (missing key,
    text that is not a timestamp), in a calendar that is not in error,
    turns the whole call into an error result without slots, whatever the
    other calendars hold. *)
Theorem unreadable_entry_gives_error (gcal_service : service)
  (args : FindAvailableSlotsArgs) (window_start window_end : Z) (fb : freebusy_result)
  (cal_id : string) (data : calendar_data) (entry : busy_entry) :
  start_of_day (fa_start_date args) = Ok window_start ->
  end_of_day (fa_end_date args) = Ok window_end ->
  freebusy_query gcal_service
    {| timeMin := window_start; timeMax := window_end;
       items := attendee_emails args; timeZone := "UTC" |} = Ok fb ->
  In (cal_id, data) fb -> errors data = false -> In entry (busy data) ->
  (exists e, busy_start entry = Raise e \/ busy_end entry = Raise e) ->
  exists msg,
    snd (find_available_slots gcal_service args)
    = Ok {| slots := []; fa_status := None; fa_error := Some msg |}.
Proof.
  intros Hs He Hq Hin Herr Hentry Hbad.
  destruct (collect_busy_bad fb [] _ _ _ Hin Herr Hentry Hbad) as [e Hc].
  unfold find_available_slots, find_available_slots_try. rewrite Hs, He, Hq.
  destruct (collect_busy fb []) as [log r]. cbn [snd] in *. subst r. cbn [bind].
  destruct (is_HttpError e); eexists; reflexivity.
Qed.

Lemma unreadable_entry_gives_error_witness :
  exists msg,
    snd (find_available_slots Fixtures.with_unreadable_entry Sample.args)
    = Ok {| slots := []; fa_status := None; fa_error := Some msg |}.
Proof.
  refine (unreadable_entry_gives_error Fixtures.with_unreadable_entry Sample.args
            Sample.day_start Fixtures.day_end _ "usertwo.amd@gmail.com"
            {| errors := false; busy := [Fixtures.unreadable] |} Fixtures.unreadable
            eq_refl eq_refl eq_refl (or_introl eq_refl) eq_refl (or_introl eq_refl) _).
  eexists. right. reflexivity.
Defined.

Lemma merge_from_ends (rest : list interval) (cur : interval) :
  Forall (fun i => In (snd i) (map snd (cur :: rest))) (merge_from cur rest).
Proof.
  revert cur. induction rest as [|n rest IH]; intros cur; cbn [merge_from].
  - constructor; [now left | constructor].
  - destruct (fst n <? snd cur).
    + eapply Forall_impl; [|apply IH]. cbn. intros i [H|H]; auto.
      destruct (Z.max_spec (snd cur) (snd n)) as [[_ M]|[_ M]]; rewrite M in H; auto.
    + constructor; [now left|].
      eapply Forall_impl; [|apply IH]. cbn. intros i [H|H]; auto.
Qed.

Lemma walk_from_endpoints (we D : Z) (l : list interval) (c : Z) (s : TimeSlot) :
  In s (walk_from we D c l) ->
  (start_time s = c \/ In (start_time s) (map snd l)) /\
  (end_time s = we \/ In (end_time s) (map fst l)).
Proof.
  revert c. induction l as [|b l IH]; intro c; cbn [walk_from].
  - destruct ((we >? c) && (we - c >=? D)); [|intros []].
    intros [<-|[]]. cbn. now split; left.
  - rewrite in_app_iff. intros [H|H].
    + destruct ((fst b >? c) && (fst b - c >=? D)); [|destruct H].
      destruct H as [<-|[]]. cbn. split; [now left | right; now left].
    + destruct (IH _ H) as [H1 H2]. split.
      * destruct H1 as [H1|H1]; [|right; now right].
        destruct (Z.max_spec c (snd b)) as [[_ M]|[_ M]]; rewrite M in H1.
        -- right. now left.
        -- now left.
      * destruct H2 as [H2|H2]; [now left | right; now right].
Qed.

(** X12.  The boundaries of a returned slot are never invented: a slot
    starts at the window start or at the end of a busy interval that was
    read, and ends at the window end or at the start of a busy interval
    that was read. *)
Theorem slot_boundaries_come_from_input (gcal_service : service)
  (args : FindAvailableSlotsArgs) (window_start window_end : Z)
  (raw : list interval) (slot : TimeSlot) :
  reads gcal_service args window_start window_end raw ->
  In slot (returned_slots (snd (find_available_slots gcal_service args))) ->
  (start_time slot = window_start \/ exists i, In i raw /\ start_time slot = snd i) /\
  (end_time slot = window_end \/ exists i, In i raw /\ end_time slot = fst i).
Proof.
  intros R. rewrite (find_reads _ _ _ _ _ R). cbn [returned_slots].
  rewrite slots_of_output. unfold available_slots_of. rewrite walk_slots_from.
  intros Hin. destruct (walk_from_endpoints _ _ _ _ _ Hin) as [H1 H2].
  pose proof (sort_by_start_perm raw) as P.
  split.
  - destruct H1 as [H1|H1]; [now left | right].
    apply in_map_iff in H1. destruct H1 as (m & Hm & Hmin).
    assert (Hs : In (snd m) (map snd (sort_by_start raw))).
    { destruct (sort_by_start raw) as [|cur rest]; [destruct Hmin|].
      rewrite merge_busy_from in Hmin.
      pose proof (merge_from_ends rest cur) as Fe. rewrite Forall_forall in Fe.
      now apply Fe. }
    apply in_map_iff in Hs. destruct Hs as (i & Hi & Hiin).
    exists i. split; [|congruence].
    eapply Permutation_in; [apply Permutation_sym, P | exact Hiin].
  - destruct H2 as [H2|H2]; [now left | right].
    apply in_map_iff in H2. destruct H2 as (m & Hm & Hmin).
    assert (Hs : In (fst m) (map fst (sort_by_start raw))).
    { destruct (sort_by_start raw) as [|cur rest]; [destruct Hmin|].
      rewrite merge_busy_from in Hmin.
      pose proof (merge_from_starts rest cur) as Fs. rewrite Forall_forall in Fs.
      now apply Fs. }
    apply in_map_iff in Hs. destruct Hs as (i & Hi & Hiin).
    exists i. split; [|congruence].
    eapply Permutation_in; [apply Permutation_sym, P | exact Hiin].
Qed.

Lemma slot_boundaries_come_from_input_witness :
  let raw := [(Sample.day_start + 9 * Sample.hour, Sample.day_start + 10 * Sample.hour)] in
  let slot := {| start_time := Sample.day_start + 10 * Sample.hour;
                 end_time := Fixtures.day_end |} in
  (start_time slot = Sample.day_start \/ exists i, In i raw /\ start_time slot = snd i) /\
  (end_time slot = Fixtures.day_end \/ exists i, In i raw /\ end_time slot = fst i).
Proof.
  intros raw slot.
  exact (slot_boundaries_come_from_input Sample.busy_in_window Sample.args
           Sample.day_start Fixtures.day_end raw slot sample_reads
           (or_intror (or_introl eq_refl))).
Defined.

Lemma sort_by_start_fixed (l : list interval) :
  StronglySorted by_start l -> sort_by_start l = l.
Proof.
  induction 1 as [|x l S IH Hx]; [reflexivity|].
  cbn [sort_by_start]. rewrite IH. destruct l as [|y l]; [reflexivity|].
  cbn [insert_by_start]. inversion Hx as [|? ? Hxy _]; subst.
  unfold by_start in Hxy. apply Z.leb_le in Hxy. now rewrite Hxy.
Qed.

(** X13.  Busy intervals that are already in order and disjoint (each
    starting before it ends and ending no later than the next starts)
    come back from the sort and the merge sweep unchanged. *)
Theorem disjoint_sorted_intervals_are_kept (l : list interval) :
  Forall well_formed l -> separated l ->
  merge_busy (sort_by_start l) = l.
Proof.
  intros W S.
  assert (B : StronglySorted by_start l).
  { clear - W S. induction S as [|x l S IH Hx]; [constructor|].
    inversion W as [|? ? Wx Wl]; subst. constructor; [now apply IH|].
    eapply Forall_impl; [|exact Hx]. unfold by_start, well_formed in *.
    cbn. intros; lia. }
  rewrite (sort_by_start_fixed l B). now apply merge_busy_fixed.
Qed.

Lemma disjoint_sorted_intervals_are_kept_witness :
  Forall well_formed [(1, 2); (2, 3); (5, 8)] /\
  separated [(1, 2); (2, 3); (5, 8)] /\
  merge_busy (sort_by_start [(1, 2); (2, 3); (5, 8)]) = [(1, 2); (2, 3); (5, 8)].
Proof.
  assert (W : Forall well_formed [(1, 2); (2, 3); (5, 8)])
    by (repeat constructor; unfold well_formed; cbn; lia).
  assert (S : separated [(1, 2); (2, 3); (5, 8)])
    by (repeat constructor; cbn; lia).
  split; [exact W|]. split; [exact S|].
  exact (disjoint_sorted_intervals_are_kept _ W S).
Defined.

End GcalMore.

(** ** Further properties of the tool-calling loop *)

Module AgentMore.
Import Agent AgentProps.

Section Dispatcher.

Variables Args Out UserMap Service : Type.
Variable model_dump_json : Out -> pyresult string.

Lemma tools_get_names (d : list (string * tool Args Out UserMap Service))
  (name : string) :
  In name (map fst d) <-> exists t, tools_get d name = Ok t.
Proof.
  induction d as [|[k v] d IH]; cbn [map fst In tools_get].
  - split; [intros [] | intros [t H]; discriminate].
  - destruct (String.eqb k name) eqn:E.
    + apply String.eqb_eq in E. split; [intros _; now exists v | now left].
    + apply String.eqb_neq in E. rewrite <- IH. split; [intros [H|H]; [contradiction | exact H] | now right].
Qed.

(** X14.  The operations described to the model are exactly those the
    dispatcher can look up: a name is among the tool definitions of the
    first submission if and only if an invocation with that name is
    registered, and the definitions are listed in catalog order. *)
Theorem offered_tools_are_the_registered_ones
  (self : PydanticAgent Args Out UserMap Service) :
  map td_name (_get_tool_definitions self) = map fst (tools self) /\
  forall name,
    In name (map td_name (_get_tool_definitions self)) <->
    exists t, tools_get (tools self) name = Ok t.
Proof.
  assert (E : map td_name (_get_tool_definitions self) = map fst (tools self)).
  { unfold _get_tool_definitions. rewrite map_map. apply map_ext. now intros [k v]. }
  split; [exact E|]. intro name. rewrite E. apply tools_get_names.
Qed.

Lemma handle_tool_calls_prefix (self : PydanticAgent Args Out UserMap Service)
  (calls : list tool_call) (messages : list message) :
  exists results,
    fst (handle_tool_calls model_dump_json self messages calls) = messages ++ results /\
    Forall2 (answers model_dump_json self) (firstn (List.length results) calls) results /\
    match snd (handle_tool_calls model_dump_json self messages calls) with
    | None => List.length results = List.length calls
    | Some e =>
        exists call,
          nth_error calls (List.length results) = Some call /\
          tools_get (tools self) (function_name call) = Raise e /\
          e = key_error (function_name call)
    end.
Proof.
  revert messages. induction calls as [|call calls IH]; intro messages.
  - exists []. cbn. rewrite app_nil_r. repeat split. constructor.
  - cbn [handle_tool_calls].
    destruct (tools_get (tools self) (function_name call)) as [t|e] eqn:Ht.
    + rewrite (handle_registered _ _ _ _ model_dump_json self messages call t Ht).
      destruct (IH (messages ++ [tool_message model_dump_json self t call]))
        as (results & E & A & M).
      exists (tool_message model_dump_json self t call :: results).
      rewrite E, <- app_assoc. split; [reflexivity|]. split.
      * cbn [List.length firstn]. constructor; [now exists t | exact A].
      * destruct (snd (handle_tool_calls model_dump_json self
                         (messages ++ [tool_message model_dump_json self t call]) calls)).
        -- exact M.
        -- cbn [List.length]. now rewrite M.
    + unfold handle_tool_call. rewrite Ht. exists []. cbn. rewrite app_nil_r.
      split; [reflexivity|]. split; [constructor|].
      exists call. repeat split. exact Ht.
      exact (tools_get_unknown _ _ _ _ _ _ _ Ht).
Qed.

(** X15.  Whatever the model and the handlers do, [run_conversation] only
    appends to the conversation: the caller's messages stay in place, and
    what follows them is either nothing or the model's message followed by
    tool messages that answer, one each and in issuance order, an initial
    part of the round's invocations. *)
Theorem conversation_only_grows (self : PydanticAgent Args Out UserMap Service)
  (messages : list message) :
  let r := run_conversation model_dump_json self messages in
  run_messages r = messages \/
  exists response calls results,
    client self (first_submission self messages) = Ok response /\
    tool_calls response = Some calls /\
    run_messages r = messages ++ Response response :: results /\
    Forall2 (answers model_dump_json self) (firstn (List.length results) calls) results.
Proof.
  unfold run_conversation. fold (first_submission self messages).
  destruct (client self (first_submission self messages)) as [response|e] eqn:Hc;
    [|now left].
  destruct (tool_calls response) as [[|call calls]|] eqn:Ht; cbn [truthy];
    [now left | | now left].
  right.
  destruct (handle_tool_calls_prefix self (call :: calls) (messages ++ [Response response]))
    as (results & E & A & _).
  exists response, (call :: calls), results.
  destruct (handle_tool_calls model_dump_json self (messages ++ [Response response])
              (call :: calls)) as [messages2 [e|]]; cbn [fst] in E; subst messages2;
    cbn [run_messages]; rewrite <- app_assoc; repeat split; assumption.
Qed.

(** X16.  A run makes one submission or two: the first offers the catalog;
    a second one is made only after every invocation of a non-empty round
    was answered, it offers no tools and carries the conversation with
    all the tool messages, and its answer is the result. *)
Theorem at_most_two_submissions (self : PydanticAgent Args Out UserMap Service)
  (messages : list message) :
  let r := run_conversation model_dump_json self messages in
  run_submissions r = [first_submission self messages] \/
  exists response calls results,
    client self (first_submission self messages) = Ok response /\
    tool_calls response = Some calls /\ calls <> [] /\
    Forall2 (answers model_dump_json self) calls results /\
    run_messages r = messages ++ Response response :: results /\
    run_submissions r = [first_submission self messages; final_submission (run_messages r)] /\
    run_result r = client self (final_submission (run_messages r)).
Proof.
  unfold run_conversation. fold (first_submission self messages).
  destruct (client self (first_submission self messages)) as [response|e] eqn:Hc;
    [|now left].
  destruct (tool_calls response) as [[|call calls]|] eqn:Ht; cbn [truthy];
    [now left | | now left].
  destruct (handle_tool_calls_prefix self (call :: calls) (messages ++ [Response response]))
    as (results & E & A & M).
  destruct (handle_tool_calls model_dump_json self (messages ++ [Response response])
              (call :: calls)) as [messages2 [e|]]; cbn [fst snd] in *; [now left|].
  right. subst messages2. exists response, (call :: calls), results.
  rewrite M, firstn_all in A. cbn [run_messages run_submissions run_result].
  rewrite <- app_assoc. repeat split; try assumption. discriminate.
Qed.

(** X17.  The only exceptions that leave [run_conversation] are a failure
    of the first submission, a failure of the final submission, and the
    [KeyError] of an invocation that names an operation outside the
    catalog; an exception raised by argument validation, by a handler or
    by serialization never propagates. *)
Theorem exceptions_that_propagate (self : PydanticAgent Args Out UserMap Service)
  (messages : list message) (e : exn) :
  run_result (run_conversation model_dump_json self messages) = Raise e ->
  client self (first_submission self messages) = Raise e \/
  (exists response calls call,
      client self (first_submission self messages) = Ok response /\
      tool_calls response = Some calls /\ In call calls /\
      tools_get (tools self) (function_name call) = Raise e /\
      e = key_error (function_name call)) \/
  client self
    (final_submission (run_messages (run_conversation model_dump_json self messages)))
  = Raise e.
Proof.
  unfold run_conversation. fold (first_submission self messages).
  destruct (client self (first_submission self messages)) as [response|e1] eqn:Hc.
  - destruct (tool_calls response) as [[|call calls]|] eqn:Ht; cbn [truthy];
      [discriminate | | discriminate].
    destruct (handle_tool_calls_prefix self (call :: calls)
                (messages ++ [Response response])) as (results & E & A & M).
    destruct (handle_tool_calls model_dump_json self (messages ++ [Response response])
                (call :: calls)) as [messages2 [e2|]]; cbn [fst snd run_result run_messages] in *.
    + intros [= <-]. right. left. destruct M as (c & Hn & Hu & He).
      exists response, (call :: calls), c. repeat split; try assumption.
      eapply nth_error_In; exact Hn.
    + intros H. right. right. exact H.
  - cbn [run_result]. intros [= <-]. now left.
Qed.

(** X18.  In a round of registered operations in which every invocation
    validates, runs and serializes, the conversation handed to the final
    submission is the original one, the model's message, and one tool
    message per invocation in issuance order, each with the invocation's
    identifier, the operation's name and the serialized output. *)
Theorem successful_round_messages (self : PydanticAgent Args Out UserMap Service)
  (messages : list message) (response : response_message) (calls : list tool_call)
  (text_of : tool_call -> string) :
  client self (first_submission self messages) = Ok response ->
  tool_calls response = Some calls ->
  calls <> [] ->
  (forall call, In call calls ->
     exists t, tools_get (tools self) (function_name call) = Ok t /\
               try_tool model_dump_json self t call = Ok (text_of call)) ->
  let r := run_conversation model_dump_json self messages in
  run_messages r
  = messages ++ Response response
      :: map (fun call => ToolMessage (id call) (function_name call) (text_of call)) calls /\
  run_submissions r = [first_submission self messages; final_submission (run_messages r)].
Proof.
  intros Hc Ht Hne Hok.
  assert (F : Forall (registered self) calls).
  { apply Forall_forall. intros call Hin. destruct (Hok call Hin) as (t & H & _).
    now exists t. }
  destruct (handle_all_registered _ _ _ _ model_dump_json self calls
              (messages ++ [Response response]) F) as (results & E & A).
  assert (R : results
              = map (fun call => ToolMessage (id call) (function_name call) (text_of call))
                  calls).
  { clear E F Ht Hne. induction A as [|c m cs ms Hcm A IH]; [reflexivity|].
    cbn [map]. f_equal.
    - destruct Hcm as (t & Hget & ->). destruct (Hok c (or_introl eq_refl)) as (t' & Hget' & Htry).
      rewrite Hget in Hget'. injection Hget' as <-. unfold tool_message. now rewrite Htry.
    - apply IH. intros call Hin. apply Hok. now right. }
  unfold run_conversation. fold (first_submission self messages). rewrite Hc, Ht.
  assert (T : truthy (Some calls) = true) by (destruct calls; [now elim Hne | reflexivity]).
  rewrite T, E. cbn [run_messages run_submissions]. rewrite <- app_assoc, R.
  split; reflexivity.
Qed.

(** X19.  In an agent built by the constructor, the registered operations
    are the three of the catalog, and each is called with the context it
    needs: [parse_email] with the arguments and the user map, the two
    calendar operations with the calendar handle and the arguments.  No
    registered operation is called with the arguments alone. *)
Theorem catalog_operations_get_their_context
  (parse_email retrieve_calendar_events find_available_slots : tool Args Out UserMap Service)
  (the_client : submission -> pyresult response_message)
  (the_service : Service) (the_user_map : UserMap)
  (call : tool_call) (t : tool Args Out UserMap Service) (function_args : Args) :
  let self := init Args Out UserMap Service parse_email retrieve_calendar_events
                find_available_slots the_client the_service the_user_map in
  tools_get (tools self) (function_name call) = Ok t ->
  (function_name call = "parse_email" /\ t = parse_email /\
   call_function self (function t) (function_name call) function_args
   = function parse_email [OfArgs function_args; OfUserMap the_user_map]) \/
  (function_name call = "retrieve_calendar_events" /\ t = retrieve_calendar_events /\
   call_function self (function t) (function_name call) function_args
   = function retrieve_calendar_events [OfService the_service; OfArgs function_args]) \/
  (function_name call = "find_available_slots" /\ t = find_available_slots /\
   call_function self (function t) (function_name call) function_args
   = function find_available_slots [OfService the_service; OfArgs function_args]).
Proof.
  intros self. unfold self, init. cbn [tools tools_get].
  destruct (String.eqb "parse_email" (function_name call)) eqn:E1.
  - apply String.eqb_eq in E1. intros [= <-]. left.
    unfold call_function. rewrite <- E1. cbn. repeat split.
  - destruct (String.eqb "retrieve_calendar_events" (function_name call)) eqn:E2.
    + apply String.eqb_eq in E2. intros [= <-]. right. left.
      unfold call_function. rewrite <- E2. cbn. repeat split.
    + destruct (String.eqb "find_available_slots" (function_name call)) eqn:E3;
        [|discriminate].
      apply String.eqb_eq in E3. intros [= <-]. right. right.
      unfold call_function. rewrite <- E3. cbn. repeat split.
Qed.

End Dispatcher.

Lemma exceptions_that_propagate_witness :
  let self := Sample.agent (Some [Sample.unknown_call; Sample.good_call]) in
  let e := key_error "make_coffee" in
  client self (first_submission self Sample.conversation) = Raise e \/
  (exists response calls call,
      client self (first_submission self Sample.conversation) = Ok response /\
      tool_calls response = Some calls /\ In call calls /\
      tools_get (tools self) (function_name call) = Raise e /\
      e = key_error (function_name call)) \/
  client self
    (final_submission
       (run_messages (run_conversation Sample.dump self Sample.conversation)))
  = Raise e.
Proof.
  intros self e.
  exact (exceptions_that_propagate string string unit unit Sample.dump self
           Sample.conversation e eq_refl).
Defined.

Lemma successful_round_messages_witness :
  let self := Sample.agent (Some [Sample.good_call]) in
  let r := run_conversation Sample.dump self Sample.conversation in
  run_messages r
  = Sample.conversation
    ++ Response {| content := None; tool_calls := Some [Sample.good_call] |}
       :: [ToolMessage "call_2" "parse_email" "parsed"] /\
  run_submissions r
  = [first_submission self Sample.conversation; final_submission (run_messages r)].
Proof.
  intros self.
  refine (successful_round_messages string string unit unit Sample.dump self
            Sample.conversation _ [Sample.good_call] (fun _ => "parsed")
            eq_refl eq_refl _ _).
  - discriminate.
  - intros call [<-|[]]. exists Sample.echo. split; reflexivity.
Defined.

Lemma catalog_operations_get_their_context_witness :
  let self := Sample.agent None in
  (function_name Sample.good_call = "parse_email" /\ Sample.echo = Sample.echo /\
   call_function self (function Sample.echo) (function_name Sample.good_call) "{}"
   = function Sample.echo [OfArgs "{}"; OfUserMap tt]) \/
  (function_name Sample.good_call = "retrieve_calendar_events" /\
   Sample.echo = Sample.calendar_operation /\
   call_function self (function Sample.echo) (function_name Sample.good_call) "{}"
   = function Sample.calendar_operation [OfService tt; OfArgs "{}"]) \/
  (function_name Sample.good_call = "find_available_slots" /\
   Sample.echo = Sample.calendar_operation /\
   call_function self (function Sample.echo) (function_name Sample.good_call) "{}"
   = function Sample.calendar_operation [OfService tt; OfArgs "{}"]).
Proof.
  intro self.
  exact (catalog_operations_get_their_context string string unit unit
           Sample.echo Sample.calendar_operation Sample.calendar_operation
           (Sample.scripted_client None) tt tt Sample.good_call Sample.echo "{}" eq_refl).
Defined.

End AgentMore.

(** ** Properties of the request handler *)

Module MainProps.
Import Agent AgentProps AgentMore Main.

Lemma find_user_found (items : list (string * string)) (sender : option string)
  (user_id email : string) :
  find_user items sender = Some (user_id, email) ->
  In (user_id, email) items /\ sender = Some email.
Proof.
  induction items as [|[u em] items IH]; cbn [find_user]; [discriminate|].
  destruct sender as [s|].
  - destruct (String.eqb em s) eqn:E.
    + apply String.eqb_eq in E. intros [= <- <-]. split; [now left | now subst].
    + intros H. destruct (IH H) as [H1 H2]. split; [now right | exact H2].
  - intros H. destruct (IH H) as [H1 H2]. split; [now right | exact H2].
Qed.

Lemma find_user_unknown (items : list (string * string)) (sender : option string) :
  (forall user_id email, In (user_id, email) items -> sender <> Some email) ->
  find_user items sender = None.
Proof.
  induction items as [|[u em] items IH]; intros H; cbn [find_user]; [reflexivity|].
  destruct sender as [s|].
  - destruct (String.eqb em s) eqn:E.
    + apply String.eqb_eq in E. subst s. now elim (H u em (or_introl eq_refl)).
    + apply IH. intros user_id email Hin. apply (H user_id email). now right.
  - apply IH. intros user_id email Hin. apply (H user_id email). now right.
Qed.

Lemma find_user_USER_MAP (user_id email : string) :
  In (user_id, email) USER_MAP ->
  find_user USER_MAP (Some email) = Some (user_id, email) /\ user_id <> EmptyString.
Proof.
  intros [H|[H|[H|[]]]]; injection H as <- <-; split; (reflexivity || discriminate).
Qed.

Section Handler.

Variables Args Out Service : Type.
Variables parse_email retrieve_calendar_events find_available_slots
  : tool Args Out (list (string * string)) Service.
Variable model_dump_json : Out -> pyresult string.
Variable llama : submission -> pyresult response_message.
Variable authenticate_google_calendar : string -> pyresult (option Service).
Variables from_email prompt : pyresult string.

(** X20.  For a request whose sender is missing or is not the email of a
    user of the user map, nobody is authenticated and the model is not
    consulted; the answer is status 400 with an error payload built from
    [from_email], or the exception raised by reading that name. *)
Theorem unknown_sender_is_rejected (data : request_data) :
  (forall user_id email, In (user_id, email) USER_MAP -> data_From data <> Some email) ->
  let h := your_meeting_assistant parse_email retrieve_calendar_events
             find_available_slots model_dump_json llama authenticate_google_calendar
             from_email prompt data in
  authentications h = [] /\ conversation h = None /\
  match from_email with
  | Ok v =>
      returned h
      = Ok {| payload :=
                [("error",
                  JString ("User with email '" ++ v ++ "' not found in USER_MAP.")%string)];
              status_code := Some 400 |}
  | Raise e => returned h = Raise e
  end.
Proof.
  intros H. unfold your_meeting_assistant. rewrite (find_user_unknown _ _ H).
  cbn [authentications conversation returned]. unfold not_found, bind.
  repeat split. now destruct from_email.
Qed.

(** X21.  A request sent from the email of a user of the user map has
    exactly that user authenticated, once.  When authentication gives no
    handle the answer is status 500 with an error payload; when it raises,
    or when reading [prompt] raises, the exception propagates; in these
    cases the model is not consulted.  Otherwise the conversation is
    run. *)
Theorem known_sender_is_authenticated (data : request_data) (user_id email : string) :
  In (user_id, email) USER_MAP ->
  data_From data = Some email ->
  let h := your_meeting_assistant parse_email retrieve_calendar_events
             find_available_slots model_dump_json llama authenticate_google_calendar
             from_email prompt data in
  authentications h = [user_id] /\
  match authenticate_google_calendar user_id, prompt with
  | Raise e, _ => conversation h = None /\ returned h = Raise e
  | Ok None, _ =>
      conversation h = None /\
      returned h
      = Ok {| payload :=
                [("error",
                  JString ("Could not authenticate Google Calendar for user "
                           ++ user_id)%string)];
              status_code := Some 500 |}
  | Ok (Some _), Raise e => conversation h = None /\ returned h = Raise e
  | Ok (Some _), Ok _ => conversation h <> None
  end.
Proof.
  intros Hin Hfrom. unfold your_meeting_assistant. rewrite Hfrom.
  destruct (find_user_USER_MAP _ _ Hin) as [-> Hne].
  apply String.eqb_neq in Hne. rewrite Hne.
  destruct (authenticate_google_calendar user_id) as [[svc|]|e];
    [destruct prompt | |]; cbn; repeat split; discriminate.
Qed.

(** X24.  The handler raises only what authentication raises or what
    reading one of the two unbound names raises: no failure of the model,
    of the dispatcher or of an operation leaves it as an exception. *)
Theorem handler_raises_only_before_conversation (data : request_data) (e : exn) :
  returned (your_meeting_assistant parse_email retrieve_calendar_events
              find_available_slots model_dump_json llama authenticate_google_calendar
              from_email prompt data) = Raise e ->
  from_email = Raise e \/ prompt = Raise e \/
  exists user_id email,
    In (user_id, email) USER_MAP /\ data_From data = Some email /\
    authenticate_google_calendar user_id = Raise e.
Proof.
  assert (NF : not_found from_email = Raise e -> from_email = Raise e).
  { unfold not_found, bind. destruct from_email; [discriminate | now intros [= ->]]. }
  unfold your_meeting_assistant.
  destruct (find_user USER_MAP (data_From data)) as [[user_id email]|] eqn:F;
    [|cbn [returned]; intro H; left; now apply NF].
  destruct (find_user_found _ _ _ _ F) as [Hin Hfrom].
  destruct (String.eqb user_id EmptyString);
    [cbn [returned]; intro H; left; now apply NF|].
  destruct (authenticate_google_calendar user_id) as [[svc|]|e'] eqn:A; cbn [returned].
  - destruct prompt as [p|e'']; cbn [returned].
    + destruct (run_result _); discriminate.
    + intros [= <-]. right. now left.
  - discriminate.
  - intros [= <-]. right. right. now exists user_id, email.
Qed.

End Handler.

Lemma stranger_is_unknown (user_id email : string) :
  In (user_id, email) USER_MAP -> data_From Fixtures.stranger <> Some email.
Proof.
  intros [H|[H|[H|[]]]]; injection H as <- <-; discriminate.
Defined.

Lemma unknown_sender_is_rejected_witness :
  let h := Fixtures.handle None Fixtures.stranger in
  authentications h = [] /\ conversation h = None /\
  returned h = Raise (Exn OtherException "name 'from_email' is not defined").
Proof.
  exact (unknown_sender_is_rejected string string unit (Fixtures.operation "parsed")
           (Fixtures.operation "events") (Fixtures.operation "slots")
           Sample.dump (Sample.scripted_client None) Fixtures.authenticate_all
           (Raise (Exn OtherException "name 'from_email' is not defined"))
           (Ok "When can we meet?") Fixtures.stranger stranger_is_unknown).
Defined.

Lemma known_sender_is_authenticated_witness :
  let h := Fixtures.handle None Fixtures.request in
  authentications h = ["userone"] /\ conversation h <> None.
Proof.
  exact (known_sender_is_authenticated string string unit (Fixtures.operation "parsed")
           (Fixtures.operation "events") (Fixtures.operation "slots")
           Sample.dump (Sample.scripted_client None) Fixtures.authenticate_all
           (Raise (Exn OtherException "name 'from_email' is not defined"))
           (Ok "When can we meet?") Fixtures.request "userone" "userone.amd@gmail.com"
           (or_introl eq_refl) eq_refl).
Defined.

Lemma handler_raises_only_before_conversation_witness :
  let e := Exn OtherException "name 'from_email' is not defined" in
  @Raise string e = Raise e \/ Ok "When can we meet?" = Raise e \/
  exists user_id email,
    In (user_id, email) USER_MAP /\ data_From Fixtures.stranger = Some email /\
    Fixtures.authenticate_all user_id = Raise e.
Proof.
  intro e.
  exact (handler_raises_only_before_conversation string string unit (Fixtures.operation "parsed")
           (Fixtures.operation "events") (Fixtures.operation "slots")
           Sample.dump (Sample.scripted_client None) Fixtures.authenticate_all
           (Raise e) (Ok "When can we meet?") Fixtures.stranger e eq_refl).
Defined.

End MainProps.
